(** * Apriori frequent-itemset mining and rule generation (system.py)

    A shallow embedding of [get_frequent_itemsets] and [generate_rules].

    Modelling choices.
    - An item is a [string]; Python compares [str] values by code point,
      which for UTF-8 text is the byte-wise lexicographic order computed
      by [String.leb].
    - A basket ([set]) and an itemset ([frozenset]) are [gset string]; a
      [dict] keyed by itemsets is a [gmap (gset string) _].
    - Iterating over a [set], a [frozenset] or a [dict] visits every
      element once, in an order the program does not control (hash order,
      insertion order).  The order is a parameter of the model
      ([IterOrder]): every loop of the source runs over the list the
      parameter gives, and every result below holds for all orders.
    - Arithmetic comes twice.  In the exact model a number is a
      rational ([Q]) and [int / int] and [float / float] are the exact
      quotients: it carries the results on the shape of the table and of
      the rules (closure, order, termination, determinism).  In the
      binary64 model ([float64], names with the suffix [64]) a quotient
      is rounded to the nearest [float], as Python does, and a threshold
      test compares the rounded values: it carries the results that say
      which itemsets and which rules pass a threshold.  Both raise
      [ZeroDivisionError] on a zero divisor.
    - The [while] loop takes fuel; running out of it is the outcome
      [OutOfFuel], distinct from returning and from raising. *)

From Stdlib Require Import QArith Qround Qpower.
From stdpp Require Import gmap strings list fin_maps fin_sets sorting.

(** ** Outcomes of a run *)

Inductive exn := ZeroDivisionError | KeyError | OverflowError.

Inductive res (A : Type) : Type :=
  | Return (a : A)
  | Raise (e : exn)
  | OutOfFuel.
Arguments Return {A} a.
Arguments Raise {A} e.
Arguments OutOfFuel {A}.

Global Instance res_ret : MRet res := λ A a, Return a.
Global Instance res_bind : MBind res := λ A B f m,
  match m with
  | Return a => f a
  | Raise e => Raise e
  | OutOfFuel => OutOfFuel
  end.

(** A [for] loop whose body may raise: the state is threaded from left
    to right and the first exception leaves the loop. *)
Fixpoint for_each {A S : Type} (body : S → A → res S) (s : S) (l : list A)
    : res S :=
  match l with
  | [] => Return s
  | x :: l' => s' ← body s x; for_each body s' l'
  end.

(** ** Data model *)

Abbreviation item := string (only parsing).
Abbreviation itemset := (gset string) (only parsing).
Abbreviation basket := (gset string) (only parsing).
Abbreviation table := (gmap (gset string) Q) (only parsing).

(** (antecedent, consequent, support of the union, confidence) *)
Definition rule : Type := gset string * gset string * Q * Q.

(** The order in which a set or a dictionary hands out its elements. *)
Record IterOrder : Type := {
  set_iter : ∀ {A} `{Countable A}, gset A → list A;
  set_iter_perm : ∀ {A} `{Countable A} (X : gset A), set_iter X ≡ₚ elements X;
  dict_items : ∀ {K V} `{Countable K}, gmap K V → list (K * V);
  dict_items_perm : ∀ {K V} `{Countable K} (m : gmap K V),
    dict_items m ≡ₚ map_to_list m
}.

Definition canonical_order : IterOrder :=
  {| set_iter := λ A _ _ X, elements X;
     set_iter_perm := λ A _ _ X, reflexivity _;
     dict_items := λ K V _ _ m, map_to_list m;
     dict_items_perm := λ K V _ _ m, reflexivity _ |}.

(** The reverse of the canonical order: a second, different order. *)
Definition reversed_order : IterOrder :=
  {| set_iter := λ A _ _ X, reverse (elements X);
     set_iter_perm := λ A _ _ X, reverse_Permutation _;
     dict_items := λ K V _ _ m, reverse (map_to_list m);
     dict_items_perm := λ K V _ _ m, reverse_Permutation _ |}.

(** ** Primitive operations *)

(** [a / b] on two [int]s, not rounded ([int_truediv64] rounds). *)
Definition int_truediv (a b : nat) : res Q :=
  match b with
  | O => Raise ZeroDivisionError
  | S _ => Return (Z.of_nat a # Pos.of_nat b)
  end.

(** [a / b] on two [float]s, not rounded ([float_truediv64] rounds). *)
Definition float_truediv (a b : Q) : res Q :=
  if Qeq_bool b 0 then Raise ZeroDivisionError else Return (a / b)%Q.

(** [d[key]] *)
Definition getitem (d : gmap (gset string) Q) (key : itemset) : res Q :=
  match d !! key with
  | Some v => Return v
  | None => Raise KeyError
  end.

(** [d[key] += 1] on a [defaultdict(int)]. *)
Definition incr (key : itemset) (d : gmap (gset string) nat)
    : gmap (gset string) nat :=
  <[key := default 0%nat (d !! key) + 1]> d.

(** Order of [str] values, and [list.sort()]. *)
Definition str_le (s1 s2 : string) : Prop := String.leb s1 s2 = true.

Global Instance str_le_dec : RelDecision str_le.
Proof. intros s1 s2. unfold str_le. apply _. Defined.

Definition sorted (l : list string) : list string := merge_sort str_le l.

(** [itertools.combinations(l, r)] *)
Fixpoint combinations {A : Type} (l : list A) (r : nat) : list (list A) :=
  match r, l with
  | O, _ => [[]]
  | S _, [] => []
  | S r', x :: l' => ((x ::.) <$> combinations l' r') ++ combinations l' r
  end.

(** ** get_frequent_itemsets *)

Section Miner.
Context (ord : IterOrder).

(** Step 1, the counting loop over the items of every basket. *)
Definition count_items (baskets : list basket) : gmap (gset string) nat :=
  foldl (λ count basket,
           foldl (λ count item, incr {[item]} count) count
                 (set_iter ord basket))
        ∅ baskets.

(** The comprehension
    [{itemset: cnt / total_baskets for itemset, cnt in count.items()
      if cnt / total_baskets >= min_sup}]. *)
Definition frequent_of (count : gmap (gset string) nat)
    (total_baskets : nat) (min_sup : Q) : res (gmap (gset string) Q) :=
  for_each (λ (L : gmap (gset string) Q) '(itemset, cnt),
              s ← int_truediv cnt total_baskets;
              if Qle_bool min_sup s
              then v ← int_truediv cnt total_baskets;
                   mret (<[itemset := v]> L)
              else mret L)
           ∅ (dict_items ord count).

(** Body of the two nested [for i] / [for j] loops of the join step. *)
Definition join_pair (k : nat) (a b : itemset)
    (candidates : gset (gset string)) : gset (gset string) :=
  let l1 := sorted (set_iter ord a) in
  let l2 := sorted (set_iter ord b) in
  if decide (take (k - 2) l1 = take (k - 2) l2) then
    let candidate := a ∪ b in
    if decide (size candidate = k) then {[candidate]} ∪ candidates
    else candidates
  else candidates.

Fixpoint join_step (k : nat) (prev_itemsets : list itemset)
    (candidates : gset (gset string)) : gset (gset string) :=
  match prev_itemsets with
  | [] => candidates
  | a :: rest =>
      join_step k rest (foldl (λ cands b, join_pair k a b cands)
                              candidates rest)
  end.

(** The inner loop of the prune step, with its [break]. *)
Definition all_subsets_exist (k : nat) (current_L : gmap (gset string) Q)
    (candidate : itemset) : bool :=
  forallb (λ subset : list string,
             bool_decide (is_Some (current_L !! list_to_set subset)))
          (combinations (set_iter ord candidate) (k - 1)).

Definition prune_step (k : nat) (current_L : gmap (gset string) Q)
    (candidates : gset (gset string)) : gset (gset string) :=
  foldl (λ pruned candidate,
           if all_subsets_exist k current_L candidate
           then {[candidate]} ∪ pruned else pruned)
        ∅ (set_iter ord candidates).

(** Support counting of the pruned candidates. *)
Definition count_support (baskets : list basket)
    (pruned_candidates : gset (gset string)) : gmap (gset string) nat :=
  foldl (λ candidate_count basket,
           foldl (λ candidate_count candidate,
                    if decide (candidate ⊆ basket)
                    then incr candidate candidate_count
                    else candidate_count)
                 candidate_count (set_iter ord pruned_candidates))
        ∅ baskets.

(** The [while current_L:] loop.  [support_data.update(current_L)] is
    the left-biased union. *)
Fixpoint apriori_loop (fuel : nat) (baskets : list basket)
    (total_baskets : nat) (min_sup : Q)
    (current_L : gmap (gset string) Q) (k : nat)
    (support_data : gmap (gset string) Q) : res (gmap (gset string) Q) :=
  if decide (current_L = ∅) then Return support_data
  else match fuel with
       | O => OutOfFuel
       | S fuel' =>
           let prev_itemsets := (dict_items ord current_L).*1 in
           let candidates := join_step k prev_itemsets ∅ in
           let pruned_candidates := prune_step k current_L candidates in
           let candidate_count := count_support baskets pruned_candidates in
           current_L' ← frequent_of candidate_count total_baskets min_sup;
           apriori_loop fuel' baskets total_baskets min_sup current_L'
                        (k + 1) (current_L' ∪ support_data)
       end.

Definition get_frequent_itemsets (fuel : nat) (baskets : list basket)
    (min_sup : Q) : res (gmap (gset string) Q) :=
  let total_baskets := length baskets in
  let support_data : gmap (gset string) Q := ∅ in
  let count := count_items baskets in
  L1 ← frequent_of count total_baskets min_sup;
  let support_data := L1 ∪ support_data in
  apriori_loop fuel baskets total_baskets min_sup L1 2 support_data.

(** ** generate_rules *)

(** Body of the loop [for rhs in itemset]. *)
Definition rule_step (support_data : gmap (gset string) Q) (min_conf : Q)
    (itemset : itemset) (rules : list rule) (rhs : string)
    : res (list rule) :=
  let lhs := itemset ∖ {[rhs]} in
  if decide (is_Some (support_data !! lhs)) then
    s ← getitem support_data itemset;
    s_lhs ← getitem support_data lhs;
    conf ← float_truediv s s_lhs;
    if Qle_bool min_conf conf
    then s' ← getitem support_data itemset;
         mret (rules ++ [(lhs, {[rhs]}, s', conf)])
    else mret rules
  else mret rules.

Definition rules_of_itemset (support_data : gmap (gset string) Q)
    (min_conf : Q) (itemset : itemset) (rules : list rule)
    : res (list rule) :=
  for_each (rule_step support_data min_conf itemset)
           rules (set_iter ord itemset).

Definition generate_rules (support_data : gmap (gset string) Q)
    (min_conf : Q) : res (list rule) :=
  for_each (λ (rules : list rule) (itemset : gset string),
              if decide (2 ≤ size itemset)
              then rules_of_itemset support_data min_conf itemset rules
              else mret rules)
           [] (dict_items ord support_data).*1.

End Miner.

(** The scenario of the specification. *)
Definition scenario_baskets : list basket :=
  [ {["A"; "B"]}; {["A"; "B"; "C"]}; {["A"]}; {["B"; "C"]};
    {["A"; "B"; "C"]} ].

(** ** Observing a run

    The entries of the returned table, each itemset shown as the list of
    its items, and the rules in the same form. *)

Definition entries (r : res (gmap (gset string) Q))
    : option (list (list string * Q)) :=
  match r with
  | Return t => Some ((λ '(X, s), (elements X, s)) <$> map_to_list t)
  | _ => None
  end.

Definition shown_rules (r : res (list rule))
    : option (list (list string * list string * Q * Q)) :=
  match r with
  | Return rules =>
      Some ((λ '(lhs, rhs, s, c), (elements lhs, elements rhs, s, Qred c))
              <$> rules)
  | _ => None
  end.

Definition out_of_fuel {A} (r : res A) : bool :=
  match r with
  | OutOfFuel => true
  | _ => false
  end.

(** The table of the scenario. *)
Definition scenario_table : gmap (gset string) Q :=
  <[ {["A"]} := 4 # 5 ]> (<[ {["B"]} := 4 # 5 ]> (<[ {["C"]} := 3 # 5 ]>
  (<[ {["A"; "B"]} := 3 # 5 ]> (<[ {["B"; "C"]} := 3 # 5 ]> ∅))))%Q.


(** ** load_dataset

    Opening the file and splitting it into rows of fields is the work of
    [open] and [csv.reader]; the model starts from the rows they yield.
    A [str] is the list of the bytes of its UTF-8 encoding. *)

Definition bytes (codes : list nat) : list Ascii.ascii := Ascii.ascii_of_nat <$> codes.

(** The characters [str.isspace] accepts, which [str.strip] removes:
    U+0009 to U+000D, U+001C to U+0020, U+0085, U+00A0, U+1680, U+2000 to
    U+200A, U+2028, U+2029, U+202F, U+205F and U+3000, in UTF-8. *)
Definition whitespace : list (list Ascii.ascii) :=
  bytes <$> [ [9]; [10]; [11]; [12]; [13]; [28]; [29]; [30]; [31]; [32];
              [194; 133]; [194; 160]; [225; 154; 128];
              [226; 128; 128]; [226; 128; 129]; [226; 128; 130];
              [226; 128; 131]; [226; 128; 132]; [226; 128; 133];
              [226; 128; 134]; [226; 128; 135]; [226; 128; 136];
              [226; 128; 137]; [226; 128; 138]; [226; 128; 168];
              [226; 128; 169]; [226; 128; 175]; [226; 129; 159];
              [227; 128; 128] ]%nat.

(** Drop the characters of [ws], each of one to three bytes, from the
    front of [s]. *)
Fixpoint lstrip_bytes (ws : list (list Ascii.ascii)) (s : list Ascii.ascii)
    : list Ascii.ascii :=
  match s with
  | [] => []
  | c1 :: s1 =>
      if bool_decide ([c1] ∈ ws) then lstrip_bytes ws s1
      else
        match s1 with
        | [] => s
        | c2 :: s2 =>
            if bool_decide ([c1; c2] ∈ ws) then lstrip_bytes ws s2
            else
              match s2 with
              | [] => s
              | c3 :: s3 =>
                  if bool_decide ([c1; c2; c3] ∈ ws)
                  then lstrip_bytes ws s3
                  else s
              end
        end
  end.

(** The same from the back: the front of the reversed bytes, against the
    reversed encodings. *)
Definition rstrip_bytes (ws : list (list Ascii.ascii)) (s : list Ascii.ascii)
    : list Ascii.ascii :=
  reverse (lstrip_bytes (reverse <$> ws) (reverse s)).

Definition strip_bytes (s : list Ascii.ascii) : list Ascii.ascii :=
  rstrip_bytes whitespace (lstrip_bytes whitespace s).

(** [s.strip()] *)
Definition strip (s : string) : string :=
  String.string_of_list_ascii
    (strip_bytes (String.list_ascii_of_string s)).

(** [set([item.strip() for item in row if item.strip()])] *)
Definition clean_row (row : list string) : basket :=
  list_to_set (strip <$> filter (λ item, strip item ≠ EmptyString) row).

(** The loop over the rows of the reader. *)
Definition load_rows (rows : list (list string)) : list basket :=
  clean_row <$> rows.

(** ** Notions of the specification *)

(** Number of baskets that are supersets of [X]. *)
Definition basket_count (X : itemset) (baskets : list basket) : nat :=
  length (filter (λ b, X ⊆ b) baskets).

(** Support of [X]: the fraction of the baskets that contain it. *)
Definition support (X : itemset) (baskets : list basket) : Q :=
  Z.of_nat (basket_count X baskets) # Pos.of_nat (length baskets).

(** Every item that occurs in some basket. *)
Definition all_items (baskets : list basket) : gset string :=
  ⋃ baskets.

(** One pass over the baskets, incrementing the keys each basket yields:
    the shape shared by the two counting loops of the source. *)
Definition count_loop (keys_of : basket → list (gset string))
    (baskets : list basket) (d : gmap (gset string) nat)
    : gmap (gset string) nat :=
  foldl (λ d b, foldl (λ d key, incr key d) d (keys_of b)) d baskets.

(** The test the join step applies to a pair of itemsets. *)
Definition joinable (ord : IterOrder) (k : nat) (a b : gset string) : Prop :=
  take (k - 2) (sorted (set_iter ord a))
  = take (k - 2) (sorted (set_iter ord b))
  ∧ size (a ∪ b) = k.








(** ** The level-wise construction in the words of the specification

    Section 4.1: level 1 holds the single items that occur in a basket
    and meet the threshold; a size-[k] candidate is the union of two
    distinct itemsets of level [k-1] whose sorted forms agree on their
    first [k-2] elements, of size [k], all of whose size-[k-1] subsets
    are in level [k-1]; level [k] holds the candidates that meet the
    threshold.  The levels are [spec_level64], further down, with the
    threshold test of the program. *)

Definition frequent (baskets : list basket) (min_sup : Q) (X : itemset)
    : Prop :=
  (min_sup <= support X baskets)%Q.

Definition sorted_items (X : itemset) : list string :=
  merge_sort str_le (elements X).

Definition spec_candidate (prev : gset string → Prop) (k : nat)
    (X : itemset) : Prop :=
  (∃ a b, prev a ∧ prev b ∧ a ≠ b
          ∧ take (k - 2) (sorted_items a) = take (k - 2) (sorted_items b)
          ∧ X = a ∪ b ∧ size X = k)
  ∧ ∀ Y, Y ⊆ X → size Y = (k - 1)%nat → prev Y.

(** The confidence a rule carries. *)
Definition confidence (r : rule) : Q := r.2.


(** [s] begins with one of the characters of [ws]. *)
Definition starts_with (ws : list (list Ascii.ascii)) (s : list Ascii.ascii)
    : Prop :=
  ∃ p, p ∈ ws ∧ p `prefix_of` s.

(** [s] ends with one of the characters of [ws]. *)
Definition ends_with (ws : list (list Ascii.ascii)) (s : list Ascii.ascii)
    : Prop :=
  ∃ p, p ∈ ws ∧ p `suffix_of` s.

(** ** write_output

    The report is the list of the strings handed to [f.write], in order.
    Rendering a number with [:.0f] or [:.1f] is Python's; the two
    renderings are parameters of the model. *)

(** [sorted(l, key=...)]: Python's sort is stable and compares keys with
    [<] only.  For a comparison that orders the keys as the comparisons
    below do, the stable sorted list is unique; it is computed here by
    stable insertion. *)
Fixpoint insert_stable {A : Type} (lt : A → A → bool) (x : A) (l : list A)
    : list A :=
  match l with
  | [] => [x]
  | y :: l' => if lt y x then y :: insert_stable lt x l' else x :: l
  end.

Definition py_sorted {A : Type} (lt : A → A → bool) (l : list A) : list A :=
  foldr (insert_stable lt) [] l.

(** [a < b] on two [float]s. *)
Definition float_lt (a b : Q) : bool := negb (Qle_bool b a).

(** [<] on the keys [(-x[1], len(x[0]), x[0])] of two table entries: the
    tuples are compared at their first components that differ, and two
    [frozenset]s by proper inclusion. *)
Definition itemset_key_lt (x y : gset string * Q) : bool :=
  if negb (Qeq_bool (- x.2) (- y.2)) then float_lt (- x.2) (- y.2)
  else if negb (size x.1 =? size y.1) then size x.1 <? size y.1
  else if bool_decide (x.1 ≠ y.1) then bool_decide (x.1 ⊂ y.1)
  else false.

(** [<] on the keys [-x[3]] of two rules. *)
Definition rule_key_lt (r1 r2 : rule) : bool :=
  float_lt (- confidence r1) (- confidence r2).

Definition newline : string := String (Ascii.ascii_of_nat 10) EmptyString.

Section Report.
Context (ord : IterOrder) (fmt0 fmt1 : Q → string).

Definition sorted_itemsets (support_data : gmap (gset string) Q)
    : list (gset string * Q) :=
  py_sorted itemset_key_lt (dict_items ord support_data).

Definition sorted_rules (rules : list rule) : list rule :=
  py_sorted rule_key_lt rules.




End Report.

(** ** main

    What lies outside the program is a parameter of the run: [float] on
    an argument ([None] when it raises ValueError; the thresholds of the
    model are finite), the rows [csv.reader] yields for a file name
    ([None] when opening or decoding fails), and the two renderings of
    numbers.  A run shows what was printed, what was written to
    output.txt, if anything, and how it ended. *)


Inductive failure := ValueError | ReadError | Uncaught (e : exn).

Inductive ending :=
  | Finished
  | Exited (code : nat)
  | Failed (f : failure)
  | Unfinished.

Record run : Type := {
  stdout : list string;
  output_txt : option (list string);
  ended : ending
}.


Definition usage : string :=
  "Usage: python3 main.py INTEGRATED-DATASET.csv min_sup min_conf".


(** * The program over binary64 floats

    Python's [float] is an IEEE 754 binary64 number: the quotient of two
    [int]s or of two [float]s is the binary64 value nearest to the exact
    quotient, and comparisons are made on these rounded values.  The
    definitions below follow that arithmetic, and the functions of the
    program that divide or compare are given over it, under their names
    with the suffix [64].  What does not touch a [float] (the counting
    loops, the join step, the loader) is shared with the exact model. *)

(** ** Rounding a rational to binary64 *)

Definition pow2 (z : Z) : Q := (2 ^ z)%Q.

(** The exponent [e] with [2^e <= x < 2^(e+1)], for a positive [x]. *)
Definition ilog2 (x : Q) : Z :=
  let d := (Z.log2 (Qnum x) - Z.log2 (Zpos (Qden x)))%Z in
  if Qle_bool (pow2 d) x then d else (d - 1)%Z.

(** The integer nearest to [x], ties to the even one. *)
Definition rne (x : Q) : Z :=
  let f := Qfloor x in
  match (x - inject_Z f ?= 1 # 2)%Q with
  | Lt => f
  | Gt => (f + 1)%Z
  | Eq => if Z.even f then f else (f + 1)%Z
  end.

(** The multiple of the unit in the last place nearest to a positive
    [x]: 53 bits of precision, exponents from -1022 (subnormal numbers
    below). *)
Definition round_pos (x : Q) : Q :=
  let k := (Z.max (ilog2 x) (-1022) - 52)%Z in
  Qred (inject_Z (rne (x / pow2 k)) * pow2 k).

(** A [float].  A finite value is the rational it denotes; the two
    zeros are [F64 0] and [F64negzero]. *)
Inductive float64 :=
  | F64nan
  | F64inf (negative : bool)
  | F64negzero
  | F64 (q : Q).

(** The binary64 value nearest to a rational, ties to even; an infinity
    beyond the largest finite value. *)
Definition round64 (x : Q) : float64 :=
  match (x ?= 0)%Q with
  | Eq => F64 0
  | Gt => let r := round_pos x in
          if Qle_bool (pow2 1024) r then F64inf false else F64 r
  | Lt => let r := round_pos (- x) in
          if Qle_bool (pow2 1024) r then F64inf true
          else if Qeq_bool r 0 then F64negzero else F64 (Qred (- r))
  end.

Definition f64_signbit (a : float64) : bool :=
  match a with
  | F64nan => false
  | F64inf s => s
  | F64negzero => true
  | F64 q => negb (Qle_bool 0 q)
  end.

Definition f64_zero (negative : bool) : float64 :=
  if negative then F64negzero else F64 0.

Definition f64_is_zero (a : float64) : bool :=
  match a with
  | F64negzero => true
  | F64 q => Qeq_bool q 0
  | _ => false
  end.

Definition f64_is_finite (a : float64) : bool :=
  match a with
  | F64negzero | F64 _ => true
  | _ => false
  end.

(** The rational a finite value denotes. *)
Definition f64_value (a : float64) : Q :=
  match a with
  | F64 q => q
  | _ => 0
  end.

(** Comparison of two [float]s; a NaN compares with nothing. *)
Definition f64_compare (a b : float64) : option comparison :=
  match a, b with
  | F64nan, _ | _, F64nan => None
  | F64inf s1, F64inf s2 =>
      Some (if s1 then if s2 then Eq else Lt else if s2 then Gt else Eq)
  | F64inf s, _ => Some (if s then Lt else Gt)
  | _, F64inf s => Some (if s then Gt else Lt)
  | _, _ => Some (f64_value a ?= f64_value b)%Q
  end.

(** [a <= b] (which is [b >= a]), [a < b] and [a == b]. *)
Definition f64_le (a b : float64) : bool :=
  match f64_compare a b with
  | Some Lt | Some Eq => true
  | _ => false
  end.

Definition f64_lt (a b : float64) : bool :=
  match f64_compare a b with
  | Some Lt => true
  | _ => false
  end.

Definition f64_eqb (a b : float64) : bool :=
  match f64_compare a b with
  | Some Eq => true
  | _ => false
  end.

(** [- a] *)
Definition f64_neg (a : float64) : float64 :=
  match a with
  | F64nan => F64nan
  | F64inf s => F64inf (negb s)
  | F64negzero => F64 0
  | F64 q => if Qeq_bool q 0 then F64negzero else F64 (- q)
  end.

(** The IEEE quotient and product. *)
Definition f64_div (a b : float64) : float64 :=
  let s := xorb (f64_signbit a) (f64_signbit b) in
  match a, b with
  | F64nan, _ | _, F64nan => F64nan
  | F64inf _, F64inf _ => F64nan
  | F64inf _, _ => F64inf s
  | _, F64inf _ => f64_zero s
  | _, _ =>
      match f64_is_zero a, f64_is_zero b with
      | true, true => F64nan
      | true, false => f64_zero s
      | false, true => F64inf s
      | false, false => round64 (f64_value a / f64_value b)
      end
  end.

Definition f64_mul (a b : float64) : float64 :=
  let s := xorb (f64_signbit a) (f64_signbit b) in
  match a, b with
  | F64nan, _ | _, F64nan => F64nan
  | F64inf _, _ => if f64_is_zero b then F64nan else F64inf s
  | _, F64inf _ => if f64_is_zero a then F64nan else F64inf s
  | _, _ =>
      if f64_is_zero a || f64_is_zero b then f64_zero s
      else round64 (f64_value a * f64_value b)
  end.

(** [a / b] on two [int]s: the quotient correctly rounded, and
    OverflowError when it is too large for a [float]. *)
Definition int_truediv64 (a b : nat) : res float64 :=
  match b with
  | O => Raise ZeroDivisionError
  | S _ =>
      match round64 (Z.of_nat a # Pos.of_nat b) with
      | F64inf _ => Raise OverflowError
      | s => Return s
      end
  end.

(** [a / b] on two [float]s: ZeroDivisionError on a zero divisor of
    either sign, whatever the dividend. *)
Definition float_truediv64 (a b : float64) : res float64 :=
  if f64_is_zero b then Raise ZeroDivisionError else Return (f64_div a b).

(** [d[key]] *)
Definition getitem64 (d : gmap (gset string) float64) (key : itemset)
    : res float64 :=
  match d !! key with
  | Some v => Return v
  | None => Raise KeyError
  end.

(** (antecedent, consequent, support of the union, confidence) *)
Definition rule64 : Type := gset string * gset string * float64 * float64.

(** ** get_frequent_itemsets and generate_rules *)

Section Miner64.
Context (ord : IterOrder).

(** The comprehension
    [{itemset: cnt / total_baskets for itemset, cnt in count.items()
      if cnt / total_baskets >= min_sup}]. *)
Definition frequent_of64 (count : gmap (gset string) nat)
    (total_baskets : nat) (min_sup : float64)
    : res (gmap (gset string) float64) :=
  for_each (λ (L : gmap (gset string) float64) '(itemset, cnt),
              s ← int_truediv64 cnt total_baskets;
              if f64_le min_sup s
              then v ← int_truediv64 cnt total_baskets;
                   mret (<[itemset := v]> L)
              else mret L)
           ∅ (dict_items ord count).

(** The inner loop of the prune step, with its [break]. *)
Definition all_subsets_exist64 (k : nat)
    (current_L : gmap (gset string) float64) (candidate : itemset) : bool :=
  forallb (λ subset : list string,
             bool_decide (is_Some (current_L !! list_to_set subset)))
          (combinations (set_iter ord candidate) (k - 1)).

Definition prune_step64 (k : nat) (current_L : gmap (gset string) float64)
    (candidates : gset (gset string)) : gset (gset string) :=
  foldl (λ pruned candidate,
           if all_subsets_exist64 k current_L candidate
           then {[candidate]} ∪ pruned else pruned)
        ∅ (set_iter ord candidates).

(** The [while current_L:] loop. *)
Fixpoint apriori_loop64 (fuel : nat) (baskets : list basket)
    (total_baskets : nat) (min_sup : float64)
    (current_L : gmap (gset string) float64) (k : nat)
    (support_data : gmap (gset string) float64)
    : res (gmap (gset string) float64) :=
  if decide (current_L = ∅) then Return support_data
  else match fuel with
       | O => OutOfFuel
       | S fuel' =>
           let prev_itemsets := (dict_items ord current_L).*1 in
           let candidates := join_step ord k prev_itemsets ∅ in
           let pruned_candidates := prune_step64 k current_L candidates in
           let candidate_count :=
             count_support ord baskets pruned_candidates in
           current_L' ← frequent_of64 candidate_count total_baskets min_sup;
           apriori_loop64 fuel' baskets total_baskets min_sup current_L'
                          (k + 1) (current_L' ∪ support_data)
       end.

Definition get_frequent_itemsets64 (fuel : nat) (baskets : list basket)
    (min_sup : float64) : res (gmap (gset string) float64) :=
  let total_baskets := length baskets in
  let support_data : gmap (gset string) float64 := ∅ in
  let count := count_items ord baskets in
  L1 ← frequent_of64 count total_baskets min_sup;
  let support_data := L1 ∪ support_data in
  apriori_loop64 fuel baskets total_baskets min_sup L1 2 support_data.

(** Body of the loop [for rhs in itemset]. *)
Definition rule_step64 (support_data : gmap (gset string) float64)
    (min_conf : float64) (itemset : itemset) (rules : list rule64)
    (rhs : string) : res (list rule64) :=
  let lhs := itemset ∖ {[rhs]} in
  if decide (is_Some (support_data !! lhs)) then
    s ← getitem64 support_data itemset;
    s_lhs ← getitem64 support_data lhs;
    conf ← float_truediv64 s s_lhs;
    if f64_le min_conf conf
    then s' ← getitem64 support_data itemset;
         mret (rules ++ [(lhs, {[rhs]}, s', conf)])
    else mret rules
  else mret rules.

Definition rules_of_itemset64 (support_data : gmap (gset string) float64)
    (min_conf : float64) (itemset : itemset) (rules : list rule64)
    : res (list rule64) :=
  for_each (rule_step64 support_data min_conf itemset)
           rules (set_iter ord itemset).

Definition generate_rules64 (support_data : gmap (gset string) float64)
    (min_conf : float64) : res (list rule64) :=
  for_each (λ (rules : list rule64) (itemset : gset string),
              if decide (2 ≤ size itemset)
              then rules_of_itemset64 support_data min_conf itemset rules
              else mret rules)
           [] (dict_items ord support_data).*1.

End Miner64.

(** ** Observing a run *)

Definition entries64 (r : res (gmap (gset string) float64))
    : option (list (list string * float64)) :=
  match r with
  | Return t => Some ((λ '(X, s), (elements X, s)) <$> map_to_list t)
  | _ => None
  end.

Definition shown_rules64 (r : res (list rule64))
    : option (list (list string * list string * float64 * float64)) :=
  match r with
  | Return rules =>
      Some ((λ '(lhs, rhs, s, c), (elements lhs, elements rhs, s, c))
              <$> rules)
  | _ => None
  end.

(** The [float]s of some decimal literals. *)
Definition float_0_6 : float64 := Eval vm_compute in round64 (6 # 10).
Definition float_0_7 : float64 := Eval vm_compute in round64 (7 # 10).
Definition float_0_75 : float64 := Eval vm_compute in round64 (75 # 100).
Definition float_0_8 : float64 := Eval vm_compute in round64 (8 # 10).
Definition float_0_9 : float64 := Eval vm_compute in round64 (9 # 10).
Definition float_0_3 : float64 := Eval vm_compute in round64 (3 # 10).

(** 0.7142857142857143, the [float] nearest to 5/7, and its value. *)
Definition value_5_7 : Q := 6433713753386423 # 9007199254740992.
Definition float_5_7 : float64 := F64 value_5_7.

(** 0.3333333333333333, the [float] nearest to 1/3, and its value. *)
Definition value_1_3 : Q := 6004799503160661 # 18014398509481984.
Definition float_1_3 : float64 := F64 value_1_3.

(** Seven baskets, five of them with the item b. *)
Definition boundary_baskets : list basket :=
  [ {["a"; "b"]}; {["a"]}; {["a"]}; {["b"]}; {["b"]}; {["b"]}; {["b"]} ].

(** The table of the scenario, a table with a zero support, and the
    table [{c: 0.9, cd: 0.3}]. *)
Definition scenario_table64 : gmap (gset string) float64 :=
  <[ {["A"]} := float_0_8 ]> (<[ {["B"]} := float_0_8 ]>
  (<[ {["C"]} := float_0_6 ]> (<[ {["A"; "B"]} := float_0_6 ]>
  (<[ {["B"; "C"]} := float_0_6 ]> ∅)))).

Definition zero_table64 : gmap (gset string) float64 :=
  <[ {["a"]} := F64 0 ]> (<[ {["a"; "b"]} := F64 0 ]> ∅).

Definition boundary_table64 : gmap (gset string) float64 :=
  <[ {["c"]} := float_0_9 ]> (<[ {["c"; "d"]} := float_0_3 ]> ∅).

(** ** Notions of the specification, on rounded supports *)

(** The support the program records for [X]: the [float] nearest to the
    fraction of the baskets that contain it. *)
Definition support64 (X : itemset) (baskets : list basket) : float64 :=
  round64 (support X baskets).

(** An itemset the miner keeps: it lies in at least one basket and its
    recorded support reaches the threshold. *)
Definition retained64 (baskets : list basket) (min_sup : float64)
    (X : itemset) : Prop :=
  1 ≤ basket_count X baskets
  ∧ f64_le min_sup (support64 X baskets) = true.

Definition is_level64 (baskets : list basket) (min_sup : float64) (k : nat)
    (L : gmap (gset string) float64) : Prop :=
  ∀ X s, L !! X = Some s
         ↔ size X = k ∧ retained64 baskets min_sup X
           ∧ s = support64 X baskets.

Definition is_table_upto64 (baskets : list basket) (min_sup : float64)
    (n : nat) (t : gmap (gset string) float64) : Prop :=
  ∀ X s, t !! X = Some s
         ↔ (1 ≤ size X ≤ n) ∧ retained64 baskets min_sup X
           ∧ s = support64 X baskets.

Definition is_support_table64 (baskets : list basket) (min_sup : float64)
    (t : gmap (gset string) float64) : Prop :=
  ∀ X s, t !! X = Some s
         ↔ X ≠ ∅ ∧ retained64 baskets min_sup X ∧ s = support64 X baskets.

(** Frequent, as the program tests it. *)
Definition frequent64 (baskets : list basket) (min_sup : float64)
    (X : itemset) : Prop :=
  f64_le min_sup (support64 X baskets) = true.

(** The level-wise construction of section 4.1 (see [spec_candidate]),
    with that test. *)
Fixpoint spec_level64 (baskets : list basket) (min_sup : float64) (k : nat)
    (X : itemset) : Prop :=
  match k with
  | O => False
  | S k' =>
      match k' with
      | O => (∃ x, X = {[x]} ∧ x ∈ all_items baskets)
             ∧ frequent64 baskets min_sup X
      | S _ => spec_candidate (spec_level64 baskets min_sup k') k X
               ∧ frequent64 baskets min_sup X
      end
  end.

(** [X] is proposed for counting at some level. *)
Definition reachable64 (baskets : list basket) (min_sup : float64)
    (X : itemset) : Prop :=
  (∃ x, X = {[x]} ∧ x ∈ all_items baskets)
  ∨ ∃ k, 2 ≤ k ∧ spec_candidate (spec_level64 baskets min_sup (k - 1)) k X.

(** The rule [generate_rules] appends for the consequent [rhs] of the
    itemset [X], if any. *)
Definition rule_for64 (support_data : gmap (gset string) float64)
    (min_conf : float64) (X : itemset) (rhs : string) : option rule64 :=
  match support_data !! X, support_data !! (X ∖ {[rhs]}) with
  | Some s, Some s_lhs =>
      if f64_le min_conf (f64_div s s_lhs)
      then Some (X ∖ {[rhs]}, {[rhs]}, s, f64_div s s_lhs)
      else None
  | _, _ => None
  end.

(** The rules of a table, listed in the iteration order [ord]. *)
Definition rules_list64 (ord : IterOrder)
    (support_data : gmap (gset string) float64) (min_conf : float64)
    : list rule64 :=
  (dict_items ord support_data).*1 ≫= λ X,
    if decide (2 ≤ size X)
    then omap (rule_for64 support_data min_conf X) (set_iter ord X)
    else [].

(** Some confidence division of [generate_rules] has a zero divisor. *)
Definition zero_antecedent64 (support_data : gmap (gset string) float64)
    : Prop :=
  ∃ X rhs s_lhs, is_Some (support_data !! X) ∧ 2 ≤ size X ∧ rhs ∈ X
                 ∧ support_data !! (X ∖ {[rhs]}) = Some s_lhs
                 ∧ f64_is_zero s_lhs = true.

(** ** write_output

    As in the exact model, with the keys and the percentages computed on
    [float]s.  The stable insertion [py_sorted] is the result of Python's
    sort when the keys are totally ordered, which they are on a table
    and on rules without a NaN. *)

(** [<] on the keys [(-x[1], len(x[0]), x[0])] of two table entries. *)
Definition itemset_key_lt64 (x y : gset string * float64) : bool :=
  if negb (f64_eqb (f64_neg x.2) (f64_neg y.2))
  then f64_lt (f64_neg x.2) (f64_neg y.2)
  else if negb (size x.1 =? size y.1) then size x.1 <? size y.1
  else if bool_decide (x.1 ≠ y.1) then bool_decide (x.1 ⊂ y.1)
  else false.

(** [<] on the keys [-x[3]] of two rules. *)
Definition rule_key_lt64 (r1 r2 : rule64) : bool :=
  f64_lt (f64_neg r1.2) (f64_neg r2.2).

Section Report64.
Context (ord : IterOrder) (fmt0 fmt1 : float64 → string).

Definition sorted_itemsets64 (support_data : gmap (gset string) float64)
    : list (gset string * float64) :=
  py_sorted itemset_key_lt64 (dict_items ord support_data).

Definition sorted_rules64 (rules : list rule64) : list rule64 :=
  py_sorted rule_key_lt64 rules.

Definition itemset_line64 (entry : gset string * float64) : string :=
  let items := sorted (set_iter ord entry.1) in
  "[" +:+ String.concat "," items +:+ "], "
      +:+ fmt0 (f64_mul entry.2 (F64 100)) +:+ "%" +:+ newline.

Definition rule_line64 (r : rule64) : string :=
  let '(lhs, rhs, support, confidence) := r in
  let lhs_str := String.concat "," (sorted (set_iter ord lhs)) in
  let rhs_str := String.concat "," (set_iter ord rhs) in
  "[" +:+ lhs_str +:+ "] => [" +:+ rhs_str +:+ "] (Conf: "
      +:+ fmt1 (f64_mul confidence (F64 100)) +:+ "%, Supp: "
      +:+ fmt1 (f64_mul support (F64 100)) +:+ "%)" +:+ newline.

Definition write_output64 (support_data : gmap (gset string) float64)
    (rules : list rule64) (min_sup min_conf : float64) : list string :=
  [ "==Frequent itemsets (min_sup="
      +:+ fmt0 (f64_mul min_sup (F64 100)) +:+ "%)" +:+ newline ]
  ++ (itemset_line64 <$> sorted_itemsets64 support_data)
  ++ [ newline +:+ "==High-confidence association rules (min_conf="
         +:+ fmt0 (f64_mul min_conf (F64 100)) +:+ "%)" +:+ newline ]
  ++ (rule_line64 <$> sorted_rules64 rules).

End Report64.

(** ** main

    The world of a run, with [float] on an argument giving any [float],
    a NaN or an infinity included ([None] when it raises ValueError).
    Opening output.txt for writing is taken to succeed. *)

Record World64 : Type := {
  float64_of : string → option float64;
  rows_of : string → option (list (list string));
  fmt_0f : float64 → string;
  fmt_1f : float64 → string
}.

Definition load_dataset64 (w : World64) (filename : string)
    : option (list basket) :=
  load_rows <$> rows_of w filename.

Definition main64 (ord : IterOrder) (w : World64) (fuel : nat)
    (argv : list string) : run :=
  if decide (length argv ≠ 4) then
    {| stdout := [usage]; output_txt := None; ended := Exited 1 |}
  else
    let dataset_file := default EmptyString (argv !! 1%nat) in
    match float64_of w (default EmptyString (argv !! 2%nat)) with
    | None => {| stdout := []; output_txt := None;
                 ended := Failed ValueError |}
    | Some min_sup =>
    match float64_of w (default EmptyString (argv !! 3%nat)) with
    | None => {| stdout := []; output_txt := None;
                 ended := Failed ValueError |}
    | Some min_conf =>
    let out := ["Loading dataset..."] in
    match load_dataset64 w dataset_file with
    | None => {| stdout := out; output_txt := None;
                 ended := Failed ReadError |}
    | Some baskets =>
    let out := out ++ ["Running Apriori..."] in
    match get_frequent_itemsets64 ord fuel baskets min_sup with
    | Raise e => {| stdout := out; output_txt := None;
                    ended := Failed (Uncaught e) |}
    | OutOfFuel => {| stdout := out; output_txt := None;
                      ended := Unfinished |}
    | Return support_data =>
    let out := out ++ ["Generating rules..."] in
    match generate_rules64 ord support_data min_conf with
    | Raise e => {| stdout := out; output_txt := None;
                    ended := Failed (Uncaught e) |}
    | OutOfFuel => {| stdout := out; output_txt := None;
                      ended := Unfinished |}
    | Return rules =>
    let out := out ++ ["Writing output to output.txt..."] in
    let report := write_output64 ord (fmt_0f w) (fmt_1f w)
                                 support_data rules min_sup min_conf in
    {| stdout := out ++ ["Done!"]; output_txt := Some report;
       ended := Finished |}
    end end end end end.

(** A world for the scenario: its five rows, and the thresholds 0.6,
    0.7 and 0.75. *)
Definition scenario_world64 : World64 :=
  {| float64_of := λ s, if decide (s = "0.6") then Some float_0_6
                        else if decide (s = "0.7") then Some float_0_7
                        else if decide (s = "0.75") then Some float_0_75
                        else None;
     rows_of := λ _, Some [ ["A"; "B"]; ["A"; " B"; "C "]; ["A"];
                            ["B"; "C"]; ["A"; "B"; "C"; ""] ];
     fmt_0f := λ _, "?";
     fmt_1f := λ _, "?" |}.

(** * Properties *)

(** ** The order on item labels *)

Lemma str_compare_Lt_trans s1 s2 s3 :
  String.compare s1 s2 = Lt → String.compare s2 s3 = Lt →
  String.compare s1 s3 = Lt.
Proof.
  revert s2 s3.
  induction s1 as [|c1 s1 IH]; intros [|c2 s2] [|c3 s3]; simpl; try done.
  unfold Ascii.compare.
  set (n1 := Ascii.N_of_ascii c1). set (n2 := Ascii.N_of_ascii c2).
  set (n3 := Ascii.N_of_ascii c3).
  destruct (N.compare_spec n1 n2) as [E12|L12|G12];
    destruct (N.compare_spec n2 n3) as [E23|L23|G23];
    try done; intros H1 H2.
  - rewrite E12, E23, N.compare_refl. eauto.
  - rewrite E12. by apply N.compare_lt_iff in L23 as ->.
  - rewrite <- E23. by apply N.compare_lt_iff in L12 as ->.
  - assert (n1 < n3)%N as ->%N.compare_lt_iff by lia. done.
Qed.

(** [str_le] is a total order, so a set of items has one sorted form. *)
Global Instance str_le_trans : Transitive str_le.
Proof.
  intros s1 s2 s3. unfold str_le, String.leb.
  destruct (String.compare s1 s2) eqn:E12; [|  |done].
  - apply String.compare_eq_iff in E12 as ->. done.
  - destruct (String.compare s2 s3) eqn:E23; [| |done].
    + apply String.compare_eq_iff in E23 as <-. by rewrite E12.
    + by rewrite (str_compare_Lt_trans _ _ _ E12 E23).
Qed.
Global Instance str_le_total : Total str_le.
Proof. intros s1 s2. apply String.leb_total. Qed.
Global Instance str_le_antisym : AntiSymm (=) str_le.
Proof. intros s1 s2. apply String.leb_antisym. Qed.

(** ** Iteration visits every element exactly once *)

Section IterFacts.
Context (ord : IterOrder).
Lemma elem_of_set_iter `{Countable A} (X : gset A) x :
  x ∈ set_iter ord X ↔ x ∈ X.
Proof. by rewrite set_iter_perm, elem_of_elements. Qed.
Lemma NoDup_set_iter `{Countable A} (X : gset A) : NoDup (set_iter ord X).
Proof. rewrite set_iter_perm. apply NoDup_elements. Qed.
Lemma length_set_iter `{Countable A} (X : gset A) :
  length (set_iter ord X) = size X.
Proof. by rewrite set_iter_perm. Qed.
Lemma elem_of_dict_items `{Countable K} {V} (m : gmap K V) k v :
  (k, v) ∈ dict_items ord m ↔ m !! k = Some v.
Proof. by rewrite dict_items_perm, elem_of_map_to_list. Qed.
Lemma NoDup_dict_keys `{Countable K} {V} (m : gmap K V) :
  NoDup (dict_items ord m).*1.
Proof. rewrite dict_items_perm. apply NoDup_fst_map_to_list. Qed.
Lemma elem_of_dict_keys `{Countable K} {V} (m : gmap K V) k :
  k ∈ (dict_items ord m).*1 ↔ is_Some (m !! k).
Proof.
  rewrite list_elem_of_fmap. split.
  - intros [[k' v] [-> Hin]]. apply elem_of_dict_items in Hin. eauto.
  - intros [v Hv]. exists (k, v). split; [done|]. by apply elem_of_dict_items.
Qed.
Lemma sorted_set_iter (X : gset string) :
  sorted (set_iter ord X) = merge_sort str_le (elements X).
Proof.
  unfold sorted.
  apply (Sorted_unique str_le); try apply Sorted_merge_sort; try apply _.
  by rewrite !merge_sort_Permutation, set_iter_perm.
Qed.
End IterFacts.

(** ** Counting loops *)

Lemma foldl_cond {A S : Type} (P : A → Prop) `{∀ x, Decision (P x)}
    (f : S → A → S) (s : S) (l : list A) :
  foldl (λ s x, if decide (P x) then f s x else s) s l
  = foldl f s (filter P l).
Proof.
  revert s. induction l as [|x l IH]; intros s; [done|].
  cbn [foldl]. rewrite filter_cons. case_decide; simpl; apply IH.
Qed.

Section CountLoop.
Implicit Types (d : gmap (gset string) nat) (keys : list (gset string)).

Lemma incr_keys_lookup keys d Y :
  NoDup keys →
  foldl (λ d key, incr key d) d keys !! Y
  = if decide (Y ∈ keys) then Some (default 0%nat (d !! Y) + 1)%nat
    else d !! Y.
Proof.
  intros Hnd. revert d. induction Hnd as [|key keys Hnotin Hnd IH];
    intros d; simpl.
  - destruct (decide (Y ∈ [])) as [Hin|Hin]; [|done].
    by apply elem_of_nil in Hin.
  - rewrite IH. unfold incr.
    destruct (decide (Y = key)) as [->|Hne].
    + rewrite decide_False by done.
      rewrite decide_True by left. by rewrite lookup_insert_eq.
    + rewrite lookup_insert_ne by done.
      destruct (decide (Y ∈ keys)) as [Hin|Hin],
               (decide (Y ∈ key :: keys)) as [Hin'|Hin']; try done.
      * exfalso. apply Hin'. by right.
      * exfalso. apply elem_of_cons in Hin' as [?|?]; done.
Qed.

Lemma count_loop_default keys_of baskets d Y :
  (∀ b, NoDup (keys_of b)) →
  default 0%nat (count_loop keys_of baskets d !! Y)
  = (default 0%nat (d !! Y)
     + length (filter (λ b, Y ∈ keys_of b) baskets))%nat.
Proof.
  intros Hnd. revert d. induction baskets as [|b baskets IH]; intros d.
  - simpl. lia.
  - unfold count_loop in *. cbn [foldl]. rewrite IH, filter_cons.
    rewrite incr_keys_lookup by done.
    case_decide; simpl; lia.
Qed.

Lemma count_loop_is_Some keys_of baskets d Y :
  (∀ b, NoDup (keys_of b)) →
  is_Some (count_loop keys_of baskets d !! Y)
  ↔ is_Some (d !! Y) ∨ 1 ≤ length (filter (λ b, Y ∈ keys_of b) baskets).
Proof.
  intros Hnd. revert d. induction baskets as [|b baskets IH]; intros d.
  - simpl. split; [by left|]. intros [?|?]; [done|lia].
  - unfold count_loop in *. cbn [foldl]. rewrite IH, filter_cons.
    rewrite incr_keys_lookup by done.
    case_decide; simpl; split; intros [?|?]; eauto; try (right; lia).
Qed.

Lemma count_loop_lookup keys_of baskets Y c :
  (∀ b, NoDup (keys_of b)) →
  count_loop keys_of baskets ∅ !! Y = Some c
  ↔ c = length (filter (λ b, Y ∈ keys_of b) baskets) ∧ 1 ≤ c.
Proof.
  intros Hnd.
  pose proof (count_loop_default keys_of baskets ∅ Y Hnd) as Hd.
  pose proof (count_loop_is_Some keys_of baskets ∅ Y Hnd) as Hs.
  rewrite lookup_empty in Hd, Hs. simpl in Hd. split.
  - intros Hc. rewrite Hc in Hd, Hs. simpl in Hd. subst c.
    split; [done|]. destruct Hs as [[Hs|Hs] _]; [by eexists| |done].
    by destruct Hs.
  - intros [-> Hc]. destruct Hs as [_ [c' Hc']]; [by right|].
    rewrite Hc' in Hd. simpl in Hd. by subst c'.
Qed.
End CountLoop.

Lemma filter_length_nonzero {A} (P : A → Prop) `{∀ x, Decision (P x)} l :
  1 ≤ length (filter P l) → ∃ x, x ∈ l ∧ P x.
Proof.
  destruct (filter P l) as [|x l'] eqn:E; simpl; [lia|]. intros _.
  exists x. apply and_comm, (list_elem_of_filter P). rewrite E. left.
Qed.

Lemma basket_count_pos X baskets :
  1 ≤ basket_count X baskets ↔ ∃ b, b ∈ baskets ∧ X ⊆ b.
Proof.
  unfold basket_count. split.
  - apply filter_length_nonzero.
  - intros (b & Hb & HX).
    assert (b ∈ filter (λ b, X ⊆ b) baskets) as Hin
      by (by apply list_elem_of_filter).
    destruct (filter _ baskets); [by apply elem_of_nil in Hin|simpl; lia].
Qed.

Lemma basket_count_le_length X baskets :
  basket_count X baskets ≤ length baskets.
Proof. apply length_filter. Qed.

Lemma basket_count_anti X Y baskets :
  X ⊆ Y → basket_count Y baskets ≤ basket_count X baskets.
Proof.
  intros HXY. unfold basket_count.
  induction baskets as [|b baskets IH]; [done|].
  rewrite !filter_cons.
  destruct (decide (Y ⊆ b)) as [HY|HY].
  - rewrite decide_True by set_solver. simpl. lia.
  - case_decide; simpl; lia.
Qed.

Section Counting.
Context (ord : IterOrder).

Lemma count_items_loop baskets :
  count_items ord baskets
  = count_loop (λ b, singleton <$> set_iter ord b) baskets ∅.
Proof.
  unfold count_items, count_loop. generalize (∅ : gmap (gset string) nat).
  induction baskets as [|b baskets IH]; intros d; [done|].
  cbn [foldl]. rewrite <- IH. f_equal.
  generalize (set_iter ord b). clear. intros l. revert d.
  induction l as [|x l IH]; intros d; [done|]. simpl. apply IH.
Qed.

Lemma count_items_lookup baskets Y c :
  count_items ord baskets !! Y = Some c
  ↔ (∃ x, Y = {[x]}) ∧ c = basket_count Y baskets ∧ 1 ≤ c.
Proof.
  rewrite count_items_loop, count_loop_lookup; last first.
  { intros b. apply (NoDup_fmap_2 _), NoDup_set_iter. }
  assert (∀ x : string, filter (λ b, {[x]} ∈ (singleton <$> set_iter ord b :
                                        list (gset string))) baskets
               = filter (λ b, ({[x]} : gset string) ⊆ b) baskets) as Hfilter.
  { intros x. apply list_filter_iff. intros b.
    rewrite list_elem_of_fmap. split.
    - intros (x' & Heq & Hin). apply elem_of_set_iter in Hin.
      apply (inj singleton) in Heq. set_solver.
    - intros Hsub. exists x. split; [done|].
      apply elem_of_set_iter. set_solver. }
  unfold basket_count. split.
  - intros [-> Hpos].
    destruct (filter_length_nonzero _ _ Hpos) as (b & _ & Hin).
    apply list_elem_of_fmap in Hin as (x & -> & _).
    rewrite Hfilter in *. eauto.
  - intros ([x ->] & -> & Hpos). by rewrite Hfilter.
Qed.

Lemma count_support_loop baskets pruned :
  count_support ord baskets pruned
  = count_loop (λ b, filter (λ c, c ⊆ b) (set_iter ord pruned)) baskets ∅.
Proof.
  unfold count_support, count_loop. generalize (∅ : gmap (gset string) nat).
  induction baskets as [|b baskets IH]; intros d; [done|].
  cbn [foldl]. rewrite <- IH. f_equal.
  apply (foldl_cond (λ c, c ⊆ b) (λ d key, incr key d)).
Qed.

Lemma count_support_lookup baskets pruned Y c :
  count_support ord baskets pruned !! Y = Some c
  ↔ Y ∈ pruned ∧ c = basket_count Y baskets ∧ 1 ≤ c.
Proof.
  rewrite count_support_loop, count_loop_lookup; last first.
  { intros b. apply NoDup_filter, NoDup_set_iter. }
  unfold basket_count. split.
  - intros [-> Hpos].
    destruct (filter_length_nonzero _ _ Hpos) as (b & _ & Hin).
    apply list_elem_of_filter in Hin as [_ Hin%elem_of_set_iter].
    split; [done|]. split; [|done]. f_equal. apply list_filter_iff.
    intros b'. rewrite list_elem_of_filter, elem_of_set_iter. tauto.
  - intros (Hin & -> & Hpos).
    assert (filter (λ b, Y ∈ filter (λ c, c ⊆ b) (set_iter ord pruned))
                   baskets = filter (λ b, Y ⊆ b) baskets) as ->; [|done].
    apply list_filter_iff.
    intros b'. rewrite list_elem_of_filter, elem_of_set_iter. tauto.
Qed.
End Counting.

(** ** The support filter *)

Section FrequentOf.
Context (ord : IterOrder).

Lemma dict_items_empty `{Countable K} {V} :
  dict_items ord (∅ : gmap K V) = [].
Proof.
  apply Permutation_nil_r. by rewrite dict_items_perm, map_to_list_empty.
Qed.



End FrequentOf.

(** ** Combinations *)

Lemma elem_of_combinations {A} (l : list A) (r : nat) (c : list A) :
  c ∈ combinations l r ↔ c `sublist_of` l ∧ length c = r.
Proof.
  revert r c. induction l as [|x l IH]; intros [|r] c; simpl.
  - rewrite list_elem_of_singleton, sublist_nil_r.
    split; [by intros ->|by intros [-> _]].
  - rewrite elem_of_nil, sublist_nil_r. split; [done|by intros [-> ?]].
  - rewrite list_elem_of_singleton. split.
    + intros ->. split; [apply sublist_nil_l|done].
    + intros [_ Hlen]. by destruct c.
  - rewrite elem_of_app, list_elem_of_fmap, sublist_cons_r. split.
    + intros [(c' & -> & Hc')|Hc].
      * apply IH in Hc' as [Hsub <-]. split; [|done]. right. by exists c'.
      * apply (IH (S r)) in Hc as [Hsub Hlen]. split; [by left|done].
    + intros [[Hsub|(c' & -> & Hsub)] Hlen].
      * right. by apply (IH (S r)).
      * left. exists c'. split; [done|]. apply IH. simpl in Hlen.
        split; [done|lia].
Qed.

(** ** Join and prune *)

Section JoinPrune.
Context (ord : IterOrder).

Lemma joinable_sym k a b : joinable ord k a b → joinable ord k b a.
Proof. intros [Hpre Hsize]. split; [done|]. by rewrite (comm_L (∪)). Qed.

Lemma join_inner_spec k a rest cands X :
  X ∈ foldl (λ cands b, join_pair ord k a b cands) cands rest
  ↔ X ∈ cands ∨ ∃ b, b ∈ rest ∧ joinable ord k a b ∧ X = a ∪ b.
Proof.
  revert cands. induction rest as [|b rest IH]; intros cands; simpl.
  - split; [by left|]. intros [?|(b & Hb & _)]; [done|].
    by apply elem_of_nil in Hb.
  - rewrite IH. unfold join_pair. split.
    + intros [Hin|(b' & Hb' & Hj & ->)].
      * destruct (decide (take (k - 2) (sorted (set_iter ord a))
                          = take (k - 2) (sorted (set_iter ord b))));
          [|by left].
        destruct (decide (size (a ∪ b) = k)); [|by left].
        apply elem_of_union in Hin as [->%elem_of_singleton|?];
          [|by left].
        right. exists b. split; [left|]. by split.
      * right. exists b'. split; [by right|done].
    + intros [Hin|(b' & Hb' & Hj & ->)].
      * left.
        destruct (decide (take (k - 2) (sorted (set_iter ord a))
                          = take (k - 2) (sorted (set_iter ord b))));
          [|done].
        destruct (decide (size (a ∪ b) = k)); set_solver.
      * apply elem_of_cons in Hb' as [->|Hb'].
        -- left. destruct Hj as [Hpre Hsize].
           rewrite !decide_True by done. set_solver.
        -- right. by exists b'.
Qed.

Lemma join_step_spec k prev cands X :
  X ∈ join_step ord k prev cands
  ↔ X ∈ cands
    ∨ ∃ l1 a l2 b l3, prev = l1 ++ a :: l2 ++ b :: l3
                      ∧ joinable ord k a b ∧ X = a ∪ b.
Proof.
  revert cands. induction prev as [|a prev IH]; intros cands; simpl.
  - split; [by left|]. intros [?|(l1 & a & l2 & b & l3 & Heq & _)]; [done|].
    by destruct l1.
  - rewrite IH, join_inner_spec. split.
    + intros [[Hin|(b & Hb & Hj & ->)]|Hrest].
      * by left.
      * right. apply list_elem_of_split in Hb as (l2 & l3 & ->).
        by exists [], a, l2, b, l3.
      * right. destruct Hrest as (l1 & a' & l2 & b & l3 & -> & Hj & ->).
        by exists (a :: l1), a', l2, b, l3.
    + intros [Hin|(l1 & a' & l2 & b & l3 & Heq & Hj & ->)].
      * left. by left.
      * destruct l1 as [|a0 l1]; simplify_eq/=.
        -- left. right. exists b. split; [|done]. set_solver.
        -- right. by exists l1, a', l2, b, l3.
Qed.

(** Two different itemsets of the previous level pass the join in one
    of the two orders. *)
Lemma join_step_complete k prev a b :
  a ∈ prev → b ∈ prev → a ≠ b → joinable ord k a b →
  a ∪ b ∈ join_step ord k prev ∅.
Proof.
  intros Ha Hb Hne Hj. apply join_step_spec. right.
  apply list_elem_of_split in Ha as (l1 & l2 & ->).
  apply elem_of_app in Hb as [Hb|Hb].
  - apply list_elem_of_split in Hb as (l1' & l2' & ->).
    exists l1', b, l2', a, l2. rewrite <- app_assoc. simpl.
    split; [done|]. split; [by apply joinable_sym|]. by rewrite (comm_L (∪)).
  - apply elem_of_cons in Hb as [->|Hb]; [done|].
    apply list_elem_of_split in Hb as (l1' & l2' & ->).
    by exists l1, a, l1', b, l2'.
Qed.

Lemma join_step_sound k prev X :
  X ∈ join_step ord k prev ∅ →
  ∃ a b, a ∈ prev ∧ b ∈ prev ∧ X = a ∪ b ∧ size X = k.
Proof.
  intros [Hin|(l1 & a & l2 & b & l3 & -> & [_ Hsize] & ->)]%join_step_spec.
  - by apply not_elem_of_empty in Hin.
  - exists a, b. set_solver.
Qed.

Lemma all_subsets_exist_spec k (current_L : gmap (gset string) Q) candidate :
  all_subsets_exist ord k current_L candidate = true
  ↔ ∀ subset, subset `sublist_of` set_iter ord candidate →
              length subset = (k - 1)%nat →
              is_Some (current_L !! list_to_set subset).
Proof.
  unfold all_subsets_exist.
  rewrite <- Is_true_true, forallb_True, Forall_forall. split.
  - intros Hall subset Hsub Hlen.
    eapply bool_decide_unpack, Hall, elem_of_combinations. done.
  - intros Hall subset [Hsub Hlen]%elem_of_combinations.
    apply bool_decide_pack. by apply Hall.
Qed.

Lemma prune_step_spec k (current_L : gmap (gset string) Q) candidates X :
  X ∈ prune_step ord k current_L candidates
  ↔ X ∈ candidates ∧ all_subsets_exist ord k current_L X = true.
Proof.
  unfold prune_step. rewrite <- (elem_of_set_iter ord candidates).
  generalize (set_iter ord candidates). intros l.
  assert (∀ pruned : gset (gset string),
    X ∈ foldl (λ pruned candidate,
                 if all_subsets_exist ord k current_L candidate
                 then {[candidate]} ∪ pruned else pruned) pruned l
    ↔ X ∈ pruned ∨ (X ∈ l ∧ all_subsets_exist ord k current_L X = true))
    as Hgen.
  { induction l as [|c l IH]; intros pruned; simpl.
    - rewrite elem_of_nil. tauto.
    - rewrite IH, elem_of_cons.
      destruct (all_subsets_exist ord k current_L c) eqn:Hc.
      + rewrite elem_of_union, elem_of_singleton. split.
        * intros [[->|?]|[? ?]]; eauto.
        * intros [?|[[->|?] ?]]; eauto.
      + split.
        * intros [?|[? ?]]; eauto.
        * intros [?|[[->|?] ?]]; eauto. congruence. }
  rewrite Hgen. set_solver.
Qed.
End JoinPrune.

(** ** Support is anti-monotone *)

Lemma support_anti X Y baskets :
  X ⊆ Y → (support Y baskets <= support X baskets)%Q.
Proof.
  intros HXY. unfold support, Qle. simpl.
  apply Z.mul_le_mono_nonneg_r; [lia|].
  apply inj_le, basket_count_anti, HXY.
Qed.



Lemma subset_of_size (X : gset string) n :
  n ≤ size X → ∃ Y, Y ⊆ X ∧ size Y = n.
Proof.
  intros Hn. exists (list_to_set (take n (elements X))). split.
  - intros x Hx%elem_of_list_to_set. apply elem_of_elements.
    eapply elem_of_sublist; [done|apply sublist_take].
  - rewrite size_list_to_set.
    + rewrite length_take. unfold size, set_size in Hn. simpl in *. lia.
    + eapply sublist_NoDup; [apply (NoDup_elements X)|apply sublist_take].
Qed.

(** ** The join reaches every itemset whose two largest items can be
    dropped *)

Section JoinWitness.
Context (ord : IterOrder).

Lemma sorted_unique (Y : gset string) (l : list string) :
  StronglySorted str_le l → NoDup l → (∀ x, x ∈ l ↔ x ∈ Y) →
  sorted (set_iter ord Y) = l.
Proof.
  intros Hsorted Hnd Hel. unfold sorted.
  apply (StronglySorted_unique str_le); [|done|].
  - apply StronglySorted_merge_sort; apply _.
  - rewrite merge_sort_Permutation. apply NoDup_Permutation.
    + apply NoDup_set_iter.
    + done.
    + intros x. by rewrite elem_of_set_iter, Hel.
Qed.

Lemma join_witness (X : gset string) k :
  size X = k → 2 ≤ k →
  ∃ x y, x ∈ X ∧ y ∈ X ∧ x ≠ y
         ∧ take (k - 2) (sorted (set_iter ord (X ∖ {[y]})))
           = take (k - 2) (sorted (set_iter ord (X ∖ {[x]}))).
Proof.
  intros Hsize Hk.
  set (l := merge_sort str_le (elements X)).
  assert (l ≡ₚ elements X) as Hperm by apply merge_sort_Permutation.
  assert (length l = k) as Hlen by (by rewrite Hperm).
  assert (NoDup l) as Hnd by (rewrite Hperm; apply NoDup_elements).
  assert (StronglySorted str_le l) as Hsorted
    by (apply StronglySorted_merge_sort; apply _).
  assert (∀ z, z ∈ l ↔ z ∈ X) as Hel
    by (intros z; by rewrite Hperm, elem_of_elements).
  pose proof (take_drop (k - 2) l) as Hsplit.
  pose proof (length_drop l (k - 2)) as Hdrop.
  pose proof (length_take l (k - 2)) as Htake.
  destruct (drop (k - 2) l) as [|x [|y [|? ?]]]; simpl in Hdrop; try lia.
  set (l0 := take (k - 2) l) in *.
  assert (length l0 = k - 2)%nat as Hl0 by lia.
  clearbody l l0. subst l.
  apply NoDup_app in Hnd as (Hnd0 & Hdisj & Hndxy).
  apply NoDup_cons in Hndxy as [Hxy _].
  apply not_elem_of_cons in Hxy as [Hxy _].
  apply StronglySorted_app in Hsorted as (Hle & Hs0 & Hsxy).
  exists x, y. split; [apply Hel; set_solver|].
  split; [apply Hel; set_solver|]. split; [done|].
  rewrite (sorted_unique (X ∖ {[y]}) (l0 ++ [x])).
  - rewrite (sorted_unique (X ∖ {[x]}) (l0 ++ [y])).
    + by rewrite !take_app_length'.
    + apply StronglySorted_app. split; [|split; [done|]].
      * intros x1 x2 Hx1 ->%list_elem_of_singleton. apply Hle; set_solver.
      * repeat constructor.
    + apply NoDup_app. split; [done|]. split; [|apply NoDup_singleton].
      intros z Hz ->%list_elem_of_singleton. apply (Hdisj y); set_solver.
    + intros z. rewrite elem_of_difference, <- Hel. set_solver.
  - apply StronglySorted_app. split; [|split; [done|]].
    + intros x1 x2 Hx1 ->%list_elem_of_singleton. apply Hle; set_solver.
    + repeat constructor.
  - apply NoDup_app. split; [done|]. split; [|apply NoDup_singleton].
    intros z Hz ->%list_elem_of_singleton. apply (Hdisj x); set_solver.
  - intros z. rewrite elem_of_difference, <- Hel. set_solver.
Qed.
End JoinWitness.

(** ** One level of the construction *)

Section Levels.
Context (ord : IterOrder).





End Levels.

(** ** The level-wise loop *)

Section Loop.
Context (ord : IterOrder).






End Loop.

(** ** The rule generator *)

Lemma for_each_raise {A S} (body : S → A → res S) (e : exn) (s : S)
    (l : list A) :
  (∀ s x, x ∈ l → (∃ s', body s x = Return s') ∨ body s x = Raise e) →
  (∃ x, x ∈ l ∧ ∀ s, body s x = Raise e) →
  for_each body s l = Raise e.
Proof.
  revert s. induction l as [|x l IH]; intros s Hbody (x' & Hin & Hraise).
  - by apply elem_of_nil in Hin.
  - simpl. destruct (Hbody s x) as [[s' Hs']|Hs']; [left| |by rewrite Hs'].
    rewrite Hs'. cbn [mbind res_bind].
    apply elem_of_cons in Hin as [->|Hin].
    + by rewrite Hraise in Hs'.
    + apply IH; [|by exists x'].
      intros s0 x0 Hx0. apply Hbody. by right.
Qed.

Section Rules.
Context (ord : IterOrder).
Implicit Types (support_data : gmap (gset string) Q).






Lemma omap_cons_app {A B} (f : A → option B) x l :
  omap f (x :: l) = option_list (f x) ++ omap f l.
Proof. simpl. by destruct (f x). Qed.



End Rules.

Lemma for_each_cases {A S} (body : S → A → res S) (e : exn) (s : S)
    (l : list A) :
  (∀ s x, x ∈ l → (∃ s', body s x = Return s') ∨ body s x = Raise e) →
  (∃ s', for_each body s l = Return s') ∨ for_each body s l = Raise e.
Proof.
  revert s. induction l as [|x l IH]; intros s Hbody; simpl.
  - left. by eexists.
  - destruct (Hbody s x) as [[s' ->]| ->]; [left| |by right].
    cbn [mbind res_bind]. apply IH. intros s0 x0 Hx0. apply Hbody. by right.
Qed.

Lemma bind_Permutation_pointwise {A B} (f g : A → list B) (l : list A) :
  (∀ x, f x ≡ₚ g x) → l ≫= f ≡ₚ l ≫= g.
Proof.
  intros Hfg. induction l as [|x l IH]; [done|].
  rewrite !bind_cons. by rewrite IH, Hfg.
Qed.

Section RulesList.
Context (ord : IterOrder).
Implicit Types (support_data : gmap (gset string) Q).


End RulesList.


(** ** Arithmetic of supports *)



Lemma support_le_1 X baskets : (support X baskets <= 1)%Q.
Proof.
  unfold support, Qle. simpl.
  pose proof (basket_count_le_length X baskets) as Hle.
  destruct (length baskets) as [|n] eqn:Hn; [|lia].
  assert (basket_count X baskets = 0)%nat as -> by lia. simpl. lia.
Qed.





Lemma basket_count_Permutation X baskets1 baskets2 :
  baskets1 ≡ₚ baskets2 → basket_count X baskets1 = basket_count X baskets2.
Proof. intros Hperm. unfold basket_count. by rewrite Hperm. Qed.

Lemma support_Permutation X baskets1 baskets2 :
  baskets1 ≡ₚ baskets2 → support X baskets1 = support X baskets2.
Proof.
  intros Hperm. unfold support.
  by rewrite (basket_count_Permutation X _ _ Hperm), Hperm.
Qed.


(** ** Tables of the miner and the rule generator *)









(** ** The scenario of the specification, evaluated *)

Example scenario_mined :
  entries (get_frequent_itemsets canonical_order 3 scenario_baskets (6 # 10))
  = entries (Return scenario_table).
Proof. vm_compute. reflexivity. Qed.

Example scenario_rules :
  shown_rules (generate_rules canonical_order scenario_table (7 # 10))
  = Some [ (["B"], ["C"], 3 # 5, 3 # 4); (["C"], ["B"], 3 # 5, 1);
           (["B"], ["A"], 3 # 5, 3 # 4); (["A"], ["B"], 3 # 5, 3 # 4) ]%Q.
Proof. vm_compute. reflexivity. Qed.

(** One round of fuel is not enough for the scenario: its second level
    is not empty. *)
Example scenario_out_of_fuel :
  out_of_fuel
    (get_frequent_itemsets canonical_order 1 scenario_baskets (6 # 10))
  = true.
Proof. vm_compute. reflexivity. Qed.

(** * Properties of the program over binary64 floats *)

(** ** Binary64 rounding

    Powers of two. *)

Lemma pow2_pos z : (0 < pow2 z)%Q.
Proof. apply Qpower_0_lt. reflexivity. Qed.

Lemma pow2_le a b : (a <= b)%Z → (pow2 a <= pow2 b)%Q.
Proof. intros H. apply Qpower_le_compat_l; [done|discriminate]. Qed.

Lemma pow2_lt a b : (a < b)%Z → (pow2 a < pow2 b)%Q.
Proof. intros H. apply Qpower_lt_compat_l; [done|reflexivity]. Qed.

Lemma pow2_lt_inv a b : (pow2 a < pow2 b)%Q → (a < b)%Z.
Proof. intros H. eapply Qpower_lt_compat_l_inv; [exact H|reflexivity]. Qed.

Lemma pow2_add a b : (pow2 (a + b) == pow2 a * pow2 b)%Q.
Proof. apply Qpower_plus. discriminate. Qed.

Lemma pow2_Z n : (0 <= n)%Z → (pow2 n == inject_Z (2 ^ n))%Q.
Proof. intros H. unfold pow2. by rewrite Zpower_Qpower. Qed.

Lemma Qdiv_pow2 x k : (x / pow2 k == x * pow2 (- k))%Q.
Proof. unfold Qdiv, pow2. by rewrite Qpower_opp. Qed.

Lemma Qdiv_pow2_le x y k : (x <= y)%Q → (x / pow2 k <= y / pow2 k)%Q.
Proof.
  intros H. rewrite !Qdiv_pow2. apply Qmult_le_compat_r; [done|].
  apply Qlt_le_weak, pow2_pos.
Qed.

Lemma Qdiv_pow2_lt x k j : (x < pow2 j)%Q → (x / pow2 k < pow2 (j - k))%Q.
Proof.
  intros H. rewrite Qdiv_pow2. unfold Z.sub. rewrite pow2_add.
  apply Qmult_lt_compat_r; [apply pow2_pos|done].
Qed.

Lemma Qdiv_pow2_ge x k j : (pow2 j <= x)%Q → (pow2 (j - k) <= x / pow2 k)%Q.
Proof.
  intros H. rewrite Qdiv_pow2. unfold Z.sub. rewrite pow2_add.
  apply Qmult_le_compat_r; [done|]. apply Qlt_le_weak, pow2_pos.
Qed.

(** The binary exponent of a positive rational. *)

Lemma ilog2_spec x :
  (0 < x)%Q → (pow2 (ilog2 x) <= x)%Q ∧ (x < pow2 (ilog2 x + 1))%Q.
Proof.
  intros Hx. destruct x as [p q]. unfold ilog2. simpl Qnum. simpl Qden.
  assert (0 < p)%Z as Hp by (unfold Qlt in Hx; simpl in Hx; lia).
  set (lp := Z.log2 p). set (lq := Z.log2 (Z.pos q)).
  destruct (Z.log2_spec p Hp) as [Hp1 Hp2].
  destruct (Z.log2_spec (Z.pos q)) as [Hq1 Hq2]; [lia|].
  fold lp in Hp1, Hp2. fold lq in Hq1, Hq2.
  assert (0 <= lp)%Z as Hlp by apply Z.log2_nonneg.
  assert (0 <= lq)%Z as Hlq by apply Z.log2_nonneg.
  assert (p # q == inject_Z p / inject_Z (Z.pos q))%Q as Hpq
    by apply Qmake_Qdiv.
  assert (0 < inject_Z (Z.pos q))%Q as Hqpos by reflexivity.
  assert (p # q < pow2 (lp - lq + 1))%Q as Hupper.
  { rewrite Hpq. apply Qlt_shift_div_r; [done|].
    eapply Qlt_le_trans with (y := pow2 (lp + 1)).
    - rewrite pow2_Z by lia. rewrite <- Zlt_Qlt.
      by replace (lp + 1)%Z with (Z.succ lp) by lia.
    - replace (lp + 1)%Z with ((lp - lq + 1) + lq)%Z by lia.
      rewrite pow2_add. apply Qmult_le_l; [apply pow2_pos|].
      rewrite pow2_Z by done. by rewrite <- Zle_Qle. }
  assert (pow2 (lp - lq - 1) <= p # q)%Q as Hlower.
  { rewrite Hpq. apply Qle_shift_div_l; [done|].
    eapply Qle_trans with (y := pow2 lp).
    - replace lp with ((lp - lq - 1) + (lq + 1))%Z at 2 by lia.
      rewrite pow2_add. apply Qmult_le_l; [apply pow2_pos|].
      rewrite pow2_Z by lia. rewrite <- Zle_Qle.
      replace (lq + 1)%Z with (Z.succ lq) by lia. lia.
    - rewrite pow2_Z by done. by rewrite <- Zle_Qle. }
  destruct (Qle_bool (pow2 (lp - lq)) (p # q)) eqn:Htest.
  - apply Qle_bool_iff in Htest. by split.
  - split; [done|]. replace (lp - lq - 1 + 1)%Z with (lp - lq)%Z by lia.
    apply Qnot_le_lt. intros Hle. apply Qle_bool_iff in Hle. congruence.
Qed.

Lemma ilog2_mono x y : (0 < x)%Q → (x <= y)%Q → (ilog2 x <= ilog2 y)%Z.
Proof.
  intros Hx Hxy.
  destruct (ilog2_spec x Hx) as [Hx1 _].
  destruct (ilog2_spec y) as [_ Hy2]; [by eapply Qlt_le_trans|].
  assert (pow2 (ilog2 x) < pow2 (ilog2 y + 1))%Q as Hlt.
  { eapply Qle_lt_trans; [exact Hx1|]. by eapply Qle_lt_trans. }
  apply pow2_lt_inv in Hlt. lia.
Qed.

(** Rounding to the nearest integer, ties to even. *)

Lemma rne_bounds x : (Qfloor x <= rne x <= Qfloor x + 1)%Z.
Proof.
  unfold rne. destruct (x - inject_Z (Qfloor x) ?= 1 # 2)%Q; [|lia..].
  destruct (Z.even (Qfloor x)); lia.
Qed.

Lemma rne_Z n : rne (inject_Z n) = n.
Proof.
  unfold rne. rewrite Qfloor_Z.
  assert ((inject_Z n - inject_Z n ?= 1 # 2)%Q = Lt) as ->; [|done].
  apply Qlt_alt.
  assert (inject_Z n - inject_Z n == 0)%Q as -> by ring.
  reflexivity.
Qed.

Lemma rne_mono x y : (x <= y)%Q → (rne x <= rne y)%Z.
Proof.
  intros Hxy. pose proof (Qfloor_resp_le x y Hxy) as Hfl.
  pose proof (rne_bounds x). pose proof (rne_bounds y).
  destruct (decide (Qfloor x = Qfloor y)) as [Heq|Hne]; [|lia].
  unfold rne. rewrite <- Heq.
  set (f := Qfloor x).
  assert (x - inject_Z f <= y - inject_Z f)%Q as Hfrac.
  { apply Qplus_le_l with (z := inject_Z f). by ring_simplify. }
  destruct (x - inject_Z f ?= 1 # 2)%Q eqn:Hx,
           (y - inject_Z f ?= 1 # 2)%Q eqn:Hy;
    try (destruct (Z.even f); lia); try lia; exfalso.
  - apply Qeq_alt in Hx. apply Qlt_alt in Hy. rewrite Hx in Hfrac.
    by apply (Qlt_not_le _ _ Hy).
  - apply Qgt_alt in Hx. apply Qeq_alt in Hy. rewrite Hy in Hfrac.
    by apply (Qlt_not_le _ _ Hx).
  - apply Qgt_alt in Hx. apply Qlt_alt in Hy.
    apply (Qlt_not_le _ _ Hx). eapply Qle_trans; [exact Hfrac|].
    by apply Qlt_le_weak.
Qed.

(** Rounding is monotone and keeps the fractions of [0,1] finite. *)

Lemma rne_nonneg x : (0 <= x)%Q → (0 <= rne x)%Z.
Proof. intros H. rewrite <- (rne_Z 0). by apply rne_mono. Qed.

Lemma round_pos_upper x :
  (0 < x)%Q →
  (round_pos x <= pow2 (Z.max (ilog2 x) (-1022) + 1))%Q.
Proof.
  intros Hx. unfold round_pos. rewrite Qred_correct.
  destruct (ilog2_spec x Hx) as [_ Hup].
  set (E := Z.max (ilog2 x) (-1022)). set (k := (E - 52)%Z).
  assert (x / pow2 k <= inject_Z (2 ^ 53))%Q as Hq.
  { rewrite <- (pow2_Z 53) by lia. apply Qlt_le_weak.
    eapply Qlt_le_trans; [by apply Qdiv_pow2_lt|]. apply pow2_le. lia. }
  apply rne_mono in Hq. rewrite rne_Z in Hq.
  replace (E + 1)%Z with (53 + k)%Z by lia. rewrite pow2_add.
  apply Qmult_le_compat_r; [|apply Qlt_le_weak, pow2_pos].
  rewrite (pow2_Z 53) by lia. by rewrite <- Zle_Qle.
Qed.

Lemma round_pos_lower x :
  (0 < x)%Q → (-1022 <= ilog2 x)%Z → (pow2 (ilog2 x) <= round_pos x)%Q.
Proof.
  intros Hx He. unfold round_pos. rewrite Qred_correct.
  destruct (ilog2_spec x Hx) as [Hlow _].
  rewrite Z.max_l by done. set (k := (ilog2 x - 52)%Z).
  assert (inject_Z (2 ^ 52) <= x / pow2 k)%Q as Hq.
  { rewrite <- (pow2_Z 52) by lia.
    replace 52%Z with (ilog2 x - k)%Z by lia. by apply Qdiv_pow2_ge. }
  apply rne_mono in Hq. rewrite rne_Z in Hq.
  replace (ilog2 x) with (52 + k)%Z at 1 by lia. rewrite pow2_add.
  apply Qmult_le_compat_r; [|apply Qlt_le_weak, pow2_pos].
  rewrite (pow2_Z 52) by lia. by rewrite <- Zle_Qle.
Qed.

Lemma round_pos_nonneg x : (0 < x)%Q → (0 <= round_pos x)%Q.
Proof.
  intros Hx. unfold round_pos. rewrite Qred_correct.
  apply Qmult_le_0_compat; [|apply Qlt_le_weak, pow2_pos].
  change 0%Q with (inject_Z 0). rewrite <- Zle_Qle. apply rne_nonneg.
  rewrite Qdiv_pow2. apply Qmult_le_0_compat; apply Qlt_le_weak;
    [done|apply pow2_pos].
Qed.

Lemma round_pos_mono x y :
  (0 < x)%Q → (x <= y)%Q → (round_pos x <= round_pos y)%Q.
Proof.
  intros Hx Hxy.
  assert (0 < y)%Q as Hy by (by eapply Qlt_le_trans).
  pose proof (ilog2_mono x y Hx Hxy) as He.
  destruct (decide (Z.max (ilog2 x) (-1022) = Z.max (ilog2 y) (-1022)))
    as [Heq|Hne].
  - unfold round_pos. rewrite !Qred_correct, Heq.
    apply Qmult_le_compat_r; [|apply Qlt_le_weak, pow2_pos].
    rewrite <- Zle_Qle. by apply rne_mono, Qdiv_pow2_le.
  - eapply Qle_trans; [by apply round_pos_upper|].
    eapply Qle_trans; [|apply round_pos_lower; [done|lia]].
    apply pow2_le. lia.
Qed.

Lemma f64_le_finite a b : f64_le (F64 a) (F64 b) = Qle_bool a b.
Proof.
  unfold f64_le, f64_compare, f64_value.
  destruct (a ?= b)%Q eqn:Hc; symmetry.
  - apply Qle_bool_iff, Qle_lteq. right. by apply Qeq_alt.
  - apply Qle_bool_iff, Qlt_le_weak. by apply Qlt_alt.
  - apply not_true_is_false. intros Hle%Qle_bool_iff.
    apply Qgt_alt in Hc. by apply (Qlt_not_le _ _ Hc).
Qed.

Lemma f64_le_inf a : a ≠ F64nan → f64_le a (F64inf false) = true.
Proof. by destruct a as [|[]| |]. Qed.

Lemma round64_nonneg_mono x y :
  (0 <= x)%Q → (x <= y)%Q → f64_le (round64 x) (round64 y) = true.
Proof.
  intros Hx Hxy. unfold round64.
  destruct (x ?= 0)%Q eqn:Hcx.
  - destruct (y ?= 0)%Q eqn:Hcy.
    + done.
    + apply Qlt_alt in Hcy. exfalso. apply (Qlt_not_le _ _ Hcy).
      by eapply Qle_trans.
    + apply Qgt_alt in Hcy.
      destruct (Qle_bool (pow2 1024) (round_pos y)); [done|].
      rewrite f64_le_finite. by apply Qle_bool_iff, round_pos_nonneg.
  - apply Qlt_alt in Hcx. by apply (Qlt_not_le _ _ Hcx) in Hx.
  - apply Qgt_alt in Hcx.
    assert (0 < y)%Q as Hy by (by eapply Qlt_le_trans).
    apply Qgt_alt in Hy as Hcy. rewrite Hcy.
    pose proof (round_pos_mono x y Hcx Hxy) as Hr.
    destruct (Qle_bool (pow2 1024) (round_pos x)) eqn:Hox.
    + apply Qle_bool_iff in Hox.
      assert (Qle_bool (pow2 1024) (round_pos y) = true) as ->; [|done].
      apply Qle_bool_iff. by eapply Qle_trans.
    + destruct (Qle_bool (pow2 1024) (round_pos y)); [done|].
      rewrite f64_le_finite. by apply Qle_bool_iff.
Qed.

Lemma round64_not_nan x : round64 x ≠ F64nan.
Proof.
  unfold round64. destruct (x ?= 0)%Q; [done| |].
  - destruct (Qle_bool _ _); [done|]. by destruct (Qeq_bool _ _).
  - by destruct (Qle_bool _ _).
Qed.

Lemma round64_0 : round64 0 = F64 0.
Proof. reflexivity. Qed.

Lemma round64_1 : round64 1 = F64 1.
Proof. vm_compute. reflexivity. Qed.

(** A fraction between 0 and 1 rounds to a finite value between 0 and 1. *)
Lemma round64_unit x :
  (0 <= x)%Q → (x <= 1)%Q → ∃ q, round64 x = F64 q ∧ (0 <= q)%Q ∧ (q <= 1)%Q.
Proof.
  intros H0 H1.
  pose proof (round64_nonneg_mono 0 x (Qle_refl 0) H0) as Hlow.
  pose proof (round64_nonneg_mono x 1 H0 H1) as Hup.
  rewrite round64_0 in Hlow. rewrite round64_1 in Hup.
  assert (∃ q, round64 x = F64 q) as [q Hq].
  { unfold round64 in *. destruct (x ?= 0)%Q eqn:Hc; [by eexists| |].
    - apply Qlt_alt in Hc. by apply (Qlt_not_le _ _ Hc) in H0.
    - destruct (Qle_bool _ _); [done|by eexists]. }
  exists q. split; [done|]. rewrite Hq, f64_le_finite in Hlow, Hup.
  by split; apply Qle_bool_iff.
Qed.

Lemma round64_tiny : round64 (pow2 (-1074)) = F64 (Qred (pow2 (-1074))).
Proof. vm_compute. reflexivity. Qed.

(** No fraction of at least 2^-1074 rounds to zero. *)
Lemma round64_positive x :
  (pow2 (-1074) <= x)%Q → (x <= 1)%Q → ∃ q, round64 x = F64 q ∧ (0 < q)%Q.
Proof.
  intros Hlow H1.
  assert (0 <= x)%Q as H0
    by (eapply Qle_trans; [apply Qlt_le_weak, (pow2_pos (-1074))|done]).
  destruct (round64_unit x H0 H1) as (q & Hq & _ & _).
  exists q. split; [done|].
  pose proof (round64_nonneg_mono _ x
                (Qlt_le_weak _ _ (pow2_pos (-1074))) Hlow) as Hm.
  rewrite round64_tiny, Hq, f64_le_finite in Hm. apply Qle_bool_iff in Hm.
  eapply Qlt_le_trans; [|exact Hm]. rewrite Qred_correct. apply pow2_pos.
Qed.

Lemma f64_le_value a b :
  f64_is_finite a = true → f64_is_finite b = true →
  f64_le a b = Qle_bool (f64_value a) (f64_value b).
Proof.
  destruct a as [|[]| |x], b as [|[]| |y]; try done; intros _ _;
    exact (f64_le_finite _ _).
Qed.

(** [<=] on [float]s is transitive. *)
Lemma f64_le_trans a b c :
  f64_le a b = true → f64_le b c = true → f64_le a c = true.
Proof.
  destruct (f64_is_finite a) eqn:Ha, (f64_is_finite b) eqn:Hb,
    (f64_is_finite c) eqn:Hc.
  - rewrite !f64_le_value by done. rewrite !Qle_bool_iff. apply Qle_trans.
  - destruct a as [|[]| |x], b as [|[]| |y], c as [|[]| |z]; done.
  - destruct a as [|[]| |x], b as [|[]| |y], c as [|[]| |z]; done.
  - destruct a as [|[]| |x], b as [|[]| |y], c as [|[]| |z]; done.
  - destruct a as [|[]| |x], b as [|[]| |y], c as [|[]| |z]; done.
  - destruct a as [|[]| |x], b as [|[]| |y], c as [|[]| |z]; done.
  - destruct a as [|[]| |x], b as [|[]| |y], c as [|[]| |z]; done.
  - destruct a as [|[]| |x], b as [|[]| |y], c as [|[]| |z]; done.
Qed.

(** ** Rounded supports *)

Lemma support_nonneg X baskets : (0 <= support X baskets)%Q.
Proof. unfold support, Qle. simpl. lia. Qed.

Lemma support64_finite X baskets :
  ∃ q, support64 X baskets = F64 q ∧ (0 <= q)%Q ∧ (q <= 1)%Q.
Proof. apply round64_unit; [apply support_nonneg|apply support_le_1]. Qed.

Lemma support64_anti X Y baskets :
  X ⊆ Y → f64_le (support64 Y baskets) (support64 X baskets) = true.
Proof.
  intros HXY. apply round64_nonneg_mono; [apply support_nonneg|].
  by apply support_anti.
Qed.

Lemma retained64_subseteq baskets min_sup X Y :
  X ⊆ Y → retained64 baskets min_sup Y → retained64 baskets min_sup X.
Proof.
  intros HXY [Hcount Hsup]. split.
  - pose proof (basket_count_anti X Y baskets HXY). lia.
  - eapply f64_le_trans; [exact Hsup|]. by apply support64_anti.
Qed.

Lemma retained64_in_all_items baskets min_sup X :
  retained64 baskets min_sup X → X ⊆ all_items baskets.
Proof.
  intros [(b & Hb & HX)%basket_count_pos _]. unfold all_items.
  intros x Hx. apply elem_of_union_list. exists b. split; [done|]. by apply HX.
Qed.

(** A count that does not exceed the total divides without an error. *)
Lemma int_truediv64_fraction c total :
  total ≠ 0%nat → c ≤ total →
  int_truediv64 c total = Return (round64 (Z.of_nat c # Pos.of_nat total)).
Proof.
  intros Htotal Hc. unfold int_truediv64.
  destruct total as [|n]; [done|].
  destruct (round64_unit (Z.of_nat c # Pos.of_nat (S n))) as (q & -> & _).
  - unfold Qle. simpl. lia.
  - unfold Qle. simpl. lia.
  - done.
Qed.

(** ** The support filter, on floats *)

Section FrequentOf64.
Context (ord : IterOrder).

Lemma frequent_of64_empty total_baskets min_sup :
  frequent_of64 ord ∅ total_baskets min_sup = Return ∅.
Proof. unfold frequent_of64. by rewrite dict_items_empty. Qed.

Lemma frequent_of64_zero_total (count : gmap (gset string) nat) min_sup :
  count ≠ ∅ → frequent_of64 ord count 0 min_sup = Raise ZeroDivisionError.
Proof.
  intros Hne. unfold frequent_of64.
  destruct (dict_items ord count) as [|[X c] l] eqn:Hitems; [|done].
  exfalso. apply Hne, map_to_list_empty_iff, Permutation_nil_r.
  by rewrite <- dict_items_perm, Hitems.
Qed.

Lemma frequent_of64_list (l : list (gset string * nat)) total_baskets min_sup
    (L : gmap (gset string) float64) :
  total_baskets ≠ 0%nat →
  (∀ Y c, (Y, c) ∈ l → c ≤ total_baskets) →
  NoDup l.*1 →
  (∀ Y, Y ∈ l.*1 → L !! Y = None) →
  ∃ L', for_each (λ (L : gmap (gset string) float64) '(itemset, cnt),
                    s ← int_truediv64 cnt total_baskets;
                    if f64_le min_sup s
                    then v ← int_truediv64 cnt total_baskets;
                         mret (<[itemset := v]> L)
                    else mret L) L l = Return L'
        ∧ ∀ Y s, L' !! Y = Some s
                 ↔ L !! Y = Some s
                   ∨ ∃ c, (Y, c) ∈ l
                          ∧ s = round64 (Z.of_nat c # Pos.of_nat total_baskets)
                          ∧ f64_le min_sup s = true.
Proof.
  intros Htotal. revert L.
  induction l as [|[X c] l IH]; intros L Hbound Hnd Hfresh.
  - exists L. split; [done|]. intros Y s. split; [by left|].
    intros [?|(c & Hin & _)]; [done|]. by apply elem_of_nil in Hin.
  - apply NoDup_cons in Hnd as [HX Hnd]. cbn [for_each].
    rewrite int_truediv64_fraction by (done || apply (Hbound X); left).
    cbn [mbind res_bind].
    set (q := round64 (Z.of_nat c # Pos.of_nat total_baskets)).
    assert (∀ Y c', (Y, c') ∈ l → c' ≤ total_baskets) as Hbound'
      by (intros Y c' Hin; apply (Hbound Y); by right).
    destruct (f64_le min_sup q) eqn:Hle; cbn [mret res_ret mbind res_bind].
    + destruct (IH (<[X := q]> L) Hbound' Hnd) as (L' & HL' & Hspec).
      { intros Y HY. rewrite lookup_insert_ne; [|by intros ->].
        apply Hfresh. by right. }
      exists L'. split; [done|]. intros Y s. rewrite Hspec.
      destruct (decide (Y = X)) as [->|Hne].
      * rewrite lookup_insert_eq, (Hfresh X) by left. split.
        -- intros [[= <-]|(c' & Hin & ? & ?)].
           ++ right. exists c. split; [left|]. by split.
           ++ exfalso. apply HX, list_elem_of_fmap. by exists (X, c').
        -- intros [?|(c' & Hin & -> & ?)]; [done|].
           apply elem_of_cons in Hin as [[= ->]|Hin]; [by left|].
           exfalso. apply HX, list_elem_of_fmap. by exists (X, c').
      * rewrite lookup_insert_ne by done. split.
        -- intros [?|(c' & Hin & ? & ?)]; [by left|].
           right. exists c'. split; [by right|done].
        -- intros [?|(c' & Hin & ? & ?)]; [by left|].
           apply elem_of_cons in Hin as [[= ? ?]|Hin]; [done|].
           right. by exists c'.
    + destruct (IH L Hbound' Hnd) as (L' & HL' & Hspec).
      { intros Y HY. apply Hfresh. by right. }
      exists L'. split; [done|]. intros Y s. rewrite Hspec. split.
      * intros [?|(c' & Hin & ? & ?)]; [by left|].
        right. exists c'. split; [by right|done].
      * intros [?|(c' & Hin & -> & Hq)]; [by left|].
        apply elem_of_cons in Hin as [[= -> ->]|Hin]; [|right; by exists c'].
        fold q in Hq. congruence.
Qed.

Lemma frequent_of64_spec (count : gmap (gset string) nat) total_baskets
    min_sup :
  total_baskets ≠ 0%nat →
  (∀ Y c, count !! Y = Some c → c ≤ total_baskets) →
  ∃ L, frequent_of64 ord count total_baskets min_sup = Return L
       ∧ ∀ Y s, L !! Y = Some s
                ↔ ∃ c, count !! Y = Some c
                       ∧ s = round64 (Z.of_nat c # Pos.of_nat total_baskets)
                       ∧ f64_le min_sup s = true.
Proof.
  intros Htotal Hbound.
  destruct (frequent_of64_list (dict_items ord count) total_baskets min_sup ∅)
    as (L & HL & Hspec); [done| |apply NoDup_dict_keys|done|].
  { intros Y c Hin. apply (Hbound Y). by apply (elem_of_dict_items ord). }
  exists L. split; [done|]. intros Y s. rewrite Hspec, lookup_empty.
  split.
  - intros [?|(c & Hin & ?)]; [done|]. exists c.
    by rewrite <- (elem_of_dict_items ord).
  - intros (c & Hin & ?). right. exists c.
    by rewrite (elem_of_dict_items ord).
Qed.

(** An overflowing quotient raises OverflowError. *)
Lemma int_truediv64_cases c total :
  total ≠ 0%nat →
  (∃ s, int_truediv64 c total = Return s)
  ∨ int_truediv64 c total = Raise OverflowError.
Proof.
  intros Htotal. unfold int_truediv64. destruct total as [|n]; [done|].
  destruct (round64 _); eauto.
Qed.
End FrequentOf64.

(** ** The prune step, on a table of floats *)

Section Prune64.
Context (ord : IterOrder).

Lemma all_subsets_exist64_spec k (current_L : gmap (gset string) float64)
    candidate :
  all_subsets_exist64 ord k current_L candidate = true
  ↔ ∀ subset, subset `sublist_of` set_iter ord candidate →
              length subset = (k - 1)%nat →
              is_Some (current_L !! list_to_set subset).
Proof.
  unfold all_subsets_exist64.
  rewrite <- Is_true_true, forallb_True, Forall_forall. split.
  - intros Hall subset Hsub Hlen.
    eapply bool_decide_unpack, Hall, elem_of_combinations. done.
  - intros Hall subset [Hsub Hlen]%elem_of_combinations.
    apply bool_decide_pack. by apply Hall.
Qed.

Lemma prune_step64_spec k (current_L : gmap (gset string) float64)
    candidates X :
  X ∈ prune_step64 ord k current_L candidates
  ↔ X ∈ candidates ∧ all_subsets_exist64 ord k current_L X = true.
Proof.
  unfold prune_step64. rewrite <- (elem_of_set_iter ord candidates).
  generalize (set_iter ord candidates). intros l.
  assert (∀ pruned : gset (gset string),
    X ∈ foldl (λ pruned candidate,
                 if all_subsets_exist64 ord k current_L candidate
                 then {[candidate]} ∪ pruned else pruned) pruned l
    ↔ X ∈ pruned ∨ (X ∈ l ∧ all_subsets_exist64 ord k current_L X = true))
    as Hgen.
  { induction l as [|c l IH]; intros pruned; simpl.
    - rewrite elem_of_nil. tauto.
    - rewrite IH, elem_of_cons.
      destruct (all_subsets_exist64 ord k current_L c) eqn:Hc.
      + rewrite elem_of_union, elem_of_singleton. split.
        * intros [[->|?]|[? ?]]; eauto.
        * intros [?|[[->|?] ?]]; eauto.
      + split.
        * intros [?|[? ?]]; eauto.
        * intros [?|[[->|?] ?]]; eauto. congruence. }
  rewrite Hgen. set_solver.
Qed.
End Prune64.

(** ** One level of the construction, on floats *)

Section Levels64.
Context (ord : IterOrder).

Lemma level_one64 baskets min_sup :
  baskets ≠ [] →
  ∃ L1, frequent_of64 ord (count_items ord baskets) (length baskets) min_sup
        = Return L1
        ∧ is_level64 baskets min_sup 1 L1.
Proof.
  intros Hne.
  destruct (frequent_of64_spec ord (count_items ord baskets) (length baskets)
              min_sup) as (L1 & HL1 & Hspec).
  { by destruct baskets. }
  { intros Y c (_ & -> & _)%count_items_lookup.
    apply basket_count_le_length. }
  exists L1. split; [done|]. intros X s. rewrite Hspec. split.
  - intros (c & (([x ->] & -> & Hpos)%count_items_lookup & -> & Hle)).
    split; [apply size_singleton|]. by split.
  - intros (Hsize & [Hpos Hle] & ->).
    exists (basket_count X baskets). split; [|done].
    apply count_items_lookup. split; [|done].
    apply size_1_elem_of in Hsize as [x Hx]. exists x.
    by apply leibniz_equiv.
Qed.

Lemma previous_level_subset64 baskets min_sup k current_L X Y :
  is_level64 baskets min_sup (k - 1) current_L →
  retained64 baskets min_sup X → Y ⊆ X → size Y = (k - 1)%nat →
  current_L !! Y = Some (support64 Y baskets).
Proof.
  intros Hlevel Hret HYX Hsize. apply Hlevel. split; [done|].
  split; [|done]. by apply (retained64_subseteq _ _ Y X).
Qed.

Lemma retained64_is_candidate baskets min_sup k current_L X :
  2 ≤ k →
  is_level64 baskets min_sup (k - 1) current_L →
  size X = k → retained64 baskets min_sup X →
  X ∈ join_step ord k (dict_items ord current_L).*1 ∅.
Proof.
  intros Hk Hlevel Hsize Hret.
  destruct (join_witness ord X k Hsize Hk) as (x & y & Hx & Hy & Hxy & Hpre).
  assert (size (X ∖ {[y]}) = (k - 1)%nat) as Hsa.
  { rewrite size_difference by set_solver. rewrite size_singleton. lia. }
  assert (size (X ∖ {[x]}) = (k - 1)%nat) as Hsb.
  { rewrite size_difference by set_solver. rewrite size_singleton. lia. }
  assert (X ∖ {[y]} ∪ X ∖ {[x]} = X) as Hunion.
  { apply set_eq. intros z. rewrite elem_of_union, !elem_of_difference,
      !not_elem_of_singleton.
    split; [tauto|]. intros Hz. destruct (decide (z = y)) as [->|?]; eauto. }
  rewrite <- Hunion. apply join_step_complete.
  - apply elem_of_dict_keys. eexists.
    eapply previous_level_subset64; eauto. set_solver.
  - apply elem_of_dict_keys. eexists.
    eapply previous_level_subset64; eauto. set_solver.
  - intros Heq. assert (x ∈ X ∖ {[y]}) as Hin by set_solver.
    rewrite Heq in Hin. set_solver.
  - split; [done|]. by rewrite Hunion.
Qed.

Lemma retained64_survives_prune baskets min_sup k current_L X :
  2 ≤ k →
  is_level64 baskets min_sup (k - 1) current_L →
  size X = k → retained64 baskets min_sup X →
  all_subsets_exist64 ord k current_L X = true.
Proof.
  intros Hk Hlevel Hsize Hret. apply all_subsets_exist64_spec.
  intros subset Hsub Hlen. eexists.
  eapply previous_level_subset64; eauto.
  - intros z Hz%elem_of_list_to_set.
    eapply elem_of_set_iter, elem_of_sublist; eauto.
  - rewrite size_list_to_set; [done|].
    eapply sublist_NoDup; [apply (NoDup_set_iter ord X)|done].
Qed.

Lemma level_step64 baskets min_sup k current_L :
  baskets ≠ [] → 2 ≤ k →
  is_level64 baskets min_sup (k - 1) current_L →
  ∃ L', frequent_of64 ord
          (count_support ord baskets
             (prune_step64 ord k current_L
                (join_step ord k (dict_items ord current_L).*1 ∅)))
          (length baskets) min_sup = Return L'
        ∧ is_level64 baskets min_sup k L'.
Proof.
  intros Hne Hk Hlevel.
  destruct (frequent_of64_spec ord
    (count_support ord baskets
       (prune_step64 ord k current_L
          (join_step ord k (dict_items ord current_L).*1 ∅)))
    (length baskets) min_sup) as (L' & HL' & Hspec).
  { by destruct baskets. }
  { intros Y c (_ & -> & _)%count_support_lookup.
    apply basket_count_le_length. }
  exists L'. split; [done|]. intros X s. rewrite Hspec. split.
  - intros (c & ((Hin & -> & Hpos)%count_support_lookup & -> & Hle)).
    apply prune_step64_spec in Hin as [Hin _].
    apply join_step_sound in Hin as (a & b & _ & _ & _ & Hsize).
    by repeat split.
  - intros (Hsize & Hret & ->).
    exists (basket_count X baskets). destruct (Hret) as [Hpos Hle].
    split; [|done]. apply count_support_lookup. split; [|done].
    apply prune_step64_spec. split.
    + by eapply retained64_is_candidate.
    + by eapply retained64_survives_prune.
Qed.
End Levels64.

(** ** The level-wise loop, on floats *)

Section Loop64.
Context (ord : IterOrder).

Lemma level_nonempty_bound64 baskets min_sup n
    (L : gmap (gset string) float64) :
  is_level64 baskets min_sup n L → L ≠ ∅ → n ≤ size (all_items baskets).
Proof.
  intros Hlevel [X [s HX]]%map_choose.
  apply Hlevel in HX as (<- & Hret & _).
  apply subseteq_size. by eapply retained64_in_all_items.
Qed.

Lemma table_upto_extend64 baskets min_sup n
    (L t : gmap (gset string) float64) :
  is_level64 baskets min_sup (n + 1) L →
  is_table_upto64 baskets min_sup n t →
  is_table_upto64 baskets min_sup (n + 1) (L ∪ t).
Proof.
  intros Hlevel Htable X s. rewrite lookup_union_Some_raw. split.
  - intros [(Hsize & Hret & ->)%Hlevel|[_ (Hsize & Hret & ->)%Htable]].
    + split; [lia|done].
    + split; [lia|done].
  - intros (Hsize & Hret & ->).
    destruct (decide (size X = n + 1)%nat) as [Heq|Hne].
    + left. by apply Hlevel.
    + right. split.
      * destruct (L !! X) as [s'|] eqn:HL; [|done].
        apply Hlevel in HL as (? & _). lia.
      * apply Htable. split; [lia|done].
Qed.

Lemma table_upto_complete64 baskets min_sup n
    (t : gmap (gset string) float64) :
  is_level64 baskets min_sup n ∅ →
  is_table_upto64 baskets min_sup n t →
  is_support_table64 baskets min_sup t.
Proof.
  intros Hlevel Htable X s. rewrite (Htable X s). split.
  - intros (Hsize & Hret & ->). split; [|done].
    intros ->. rewrite size_empty in Hsize. lia.
  - intros (Hne & Hret & ->). split; [|done].
    assert (size X ≠ 0)%nat as Hpos.
    { intros Hz%size_empty_inv. by apply leibniz_equiv in Hz. }
    split; [lia|].
    destruct (decide (size X < n)) as [|Hbig]; [lia|]. exfalso.
    destruct (subset_of_size X n) as (Y & HYX & HY); [lia|].
    assert ((∅ : gmap (gset string) float64) !! Y
            = Some (support64 Y baskets)) as Habs.
    { apply Hlevel. split; [done|]. split; [|done].
      by apply (retained64_subseteq _ _ Y X). }
    by rewrite lookup_empty in Habs.
Qed.

Lemma apriori_loop64_spec baskets min_sup fuel k current_L support_data :
  baskets ≠ [] → 2 ≤ k →
  size (all_items baskets) + 2 ≤ fuel + k →
  is_level64 baskets min_sup (k - 1) current_L →
  is_table_upto64 baskets min_sup (k - 1) support_data →
  ∃ t, apriori_loop64 ord fuel baskets (length baskets) min_sup
                      current_L k support_data = Return t
       ∧ is_support_table64 baskets min_sup t.
Proof.
  intros Hne. revert k current_L support_data.
  induction fuel as [|fuel IH]; intros k L t Hk Hfuel Hlevel Htable.
  - simpl. destruct (decide (L = ∅)) as [->|HL].
    + exists t. split; [done|].
      by apply (table_upto_complete64 _ _ (k - 1)).
    + pose proof (level_nonempty_bound64 _ _ _ _ Hlevel HL). lia.
  - simpl. destruct (decide (L = ∅)) as [->|HL].
    + exists t. split; [done|].
      by apply (table_upto_complete64 _ _ (k - 1)).
    + destruct (level_step64 ord baskets min_sup k L Hne Hk Hlevel)
        as (L' & -> & Hlevel').
      cbn [mbind res_bind].
      apply IH; [lia|lia| |].
      * by replace (k + 1 - 1)%nat with k by lia.
      * replace (k + 1 - 1)%nat with (k - 1 + 1)%nat by lia.
        apply table_upto_extend64; [|done].
        by replace (k - 1 + 1)%nat with k by lia.
Qed.

Lemma get_frequent_itemsets64_empty fuel min_sup :
  get_frequent_itemsets64 ord fuel [] min_sup = Return ∅.
Proof.
  unfold get_frequent_itemsets64. simpl.
  replace (count_items ord []) with (∅ : gmap (gset string) nat) by done.
  rewrite frequent_of64_empty. cbn [mbind res_bind].
  destruct fuel; simpl; by rewrite (left_id_L ∅ (∪)).
Qed.

(** The miner returns, and its table holds exactly the retained
    non-empty itemsets, each with its rounded support. *)
Lemma get_frequent_itemsets64_spec fuel baskets min_sup :
  size (all_items baskets) ≤ fuel →
  ∃ t, get_frequent_itemsets64 ord fuel baskets min_sup = Return t
       ∧ is_support_table64 baskets min_sup t.
Proof.
  intros Hfuel. destruct (decide (baskets = [])) as [->|Hne].
  - exists ∅. split; [apply get_frequent_itemsets64_empty|].
    intros X s. rewrite lookup_empty. split; [done|].
    intros (_ & [Hpos _] & _). unfold basket_count in Hpos. simpl in Hpos.
    lia.
  - unfold get_frequent_itemsets64.
    destruct (level_one64 ord baskets min_sup Hne) as (L1 & -> & Hlevel).
    cbn [mbind res_bind]. apply apriori_loop64_spec; [done|lia|lia|done|].
    simpl. rewrite (right_id_L ∅ (∪)).
    intros X s. rewrite (Hlevel X s). split.
    + intros (-> & ?). split; [lia|done].
    + intros (? & ?). split; [lia|done].
Qed.
End Loop64.

(** ** The rule generator, on floats *)

Section Rules64.
Context (ord : IterOrder).
Implicit Types (support_data : gmap (gset string) float64).

Lemma float_truediv64_nonzero a b :
  f64_is_zero b = false → float_truediv64 a b = Return (f64_div a b).
Proof. intros Hb. unfold float_truediv64. by rewrite Hb. Qed.

Lemma float_truediv64_zero a b :
  f64_is_zero b = true → float_truediv64 a b = Raise ZeroDivisionError.
Proof. intros Hb. unfold float_truediv64. by rewrite Hb. Qed.

Lemma rule_step64_ok support_data min_conf X rules rhs :
  is_Some (support_data !! X) →
  (∀ s_lhs, support_data !! (X ∖ {[rhs]}) = Some s_lhs →
            f64_is_zero s_lhs = false) →
  rule_step64 support_data min_conf X rules rhs
  = Return (rules ++ option_list (rule_for64 support_data min_conf X rhs)).
Proof.
  intros [s Hs] Hnz. unfold rule_step64, rule_for64, getitem64. rewrite Hs.
  destruct (support_data !! (X ∖ {[rhs]})) as [s_lhs|] eqn:Hlhs.
  - rewrite decide_True by (by eexists). cbn [mbind res_bind].
    rewrite float_truediv64_nonzero by (by apply Hnz).
    cbn [mbind res_bind].
    by destruct (f64_le min_conf (f64_div s s_lhs)); simpl;
      rewrite ?app_nil_r.
  - rewrite decide_False by (by intros [? ?]). simpl. by rewrite app_nil_r.
Qed.

Lemma rule_step64_zero support_data min_conf X rules rhs s_lhs :
  is_Some (support_data !! X) →
  support_data !! (X ∖ {[rhs]}) = Some s_lhs → f64_is_zero s_lhs = true →
  rule_step64 support_data min_conf X rules rhs = Raise ZeroDivisionError.
Proof.
  intros [s Hs] Hlhs Hz. unfold rule_step64, getitem64. rewrite Hs, Hlhs.
  rewrite decide_True by (by eexists). cbn [mbind res_bind].
  by rewrite float_truediv64_zero.
Qed.

Lemma rule_step64_cases support_data min_conf X rules rhs :
  is_Some (support_data !! X) →
  (∃ rules', rule_step64 support_data min_conf X rules rhs = Return rules')
  ∨ rule_step64 support_data min_conf X rules rhs = Raise ZeroDivisionError.
Proof.
  intros HX.
  destruct (support_data !! (X ∖ {[rhs]})) as [s_lhs|] eqn:Hlhs.
  - destruct (f64_is_zero s_lhs) eqn:Hz.
    + right. by eapply rule_step64_zero.
    + left. eexists. apply rule_step64_ok; [done|].
      intros s' Hs'. by simplify_eq.
  - left. eexists. apply rule_step64_ok; [done|]. intros s' Hs'.
    by simplify_eq.
Qed.

Lemma rules_of_itemset64_ok support_data min_conf X rules :
  is_Some (support_data !! X) →
  (∀ rhs s_lhs, rhs ∈ X → support_data !! (X ∖ {[rhs]}) = Some s_lhs →
                f64_is_zero s_lhs = false) →
  rules_of_itemset64 ord support_data min_conf X rules
  = Return (rules ++ omap (rule_for64 support_data min_conf X)
                          (set_iter ord X)).
Proof.
  intros HX Hnz. unfold rules_of_itemset64.
  assert (∀ rhs, rhs ∈ set_iter ord X → rhs ∈ X) as Hin
    by (intros rhs; apply elem_of_set_iter).
  revert rules Hin. generalize (set_iter ord X). intros l.
  induction l as [|rhs l IH]; intros rules Hin.
  - simpl. by rewrite app_nil_r.
  - cbn [for_each]. rewrite rule_step64_ok; [|done|].
    + cbn [mbind res_bind]. rewrite IH by (intros; apply Hin; by right).
      by rewrite omap_cons_app, app_assoc.
    + intros s_lhs. apply Hnz, Hin. left.
Qed.

Lemma rules_of_itemset64_zero support_data min_conf X rules :
  is_Some (support_data !! X) →
  (∃ rhs s_lhs, rhs ∈ X ∧ support_data !! (X ∖ {[rhs]}) = Some s_lhs
                ∧ f64_is_zero s_lhs = true) →
  rules_of_itemset64 ord support_data min_conf X rules
  = Raise ZeroDivisionError.
Proof.
  intros HX (rhs & s_lhs & Hrhs & Hlhs & Hz). unfold rules_of_itemset64.
  apply for_each_raise.
  - intros rules' rhs' _. by apply rule_step64_cases.
  - exists rhs. split; [by apply elem_of_set_iter|].
    intros rules'. by eapply rule_step64_zero.
Qed.

Lemma generate_rules64_ok support_data min_conf :
  ¬ zero_antecedent64 support_data →
  generate_rules64 ord support_data min_conf
  = Return (rules_list64 ord support_data min_conf).
Proof.
  intros Hnz. unfold generate_rules64, rules_list64.
  assert (∀ X, X ∈ (dict_items ord support_data).*1 →
               is_Some (support_data !! X)) as Hkeys
    by (intros X; apply elem_of_dict_keys).
  revert Hkeys. generalize ((dict_items ord support_data).*1). intros l.
  change (@nil rule64) with (@nil rule64 ++ []) at 2.
  assert (∀ rules, (∀ X, X ∈ l → is_Some (support_data !! X)) →
    for_each (λ (rules : list rule64) (itemset : gset string),
                if decide (2 ≤ size itemset)
                then rules_of_itemset64 ord support_data min_conf itemset
                                        rules
                else mret rules) rules l
    = Return (rules ++ (l ≫= λ X,
        if decide (2 ≤ size X)
        then omap (rule_for64 support_data min_conf X) (set_iter ord X)
        else []))) as Hgen; [|intros; by apply Hgen].
  induction l as [|X l IH]; intros rules Hkeys.
  - simpl. by rewrite app_nil_r.
  - cbn [for_each]. rewrite bind_cons.
    destruct (decide (2 ≤ size X)) as [Hsize|Hsize].
    + rewrite rules_of_itemset64_ok.
      * cbn [mbind res_bind]. rewrite IH by (intros; apply Hkeys; by right).
        by rewrite <- app_assoc.
      * apply Hkeys. left.
      * intros rhs s_lhs Hrhs Hlhs. apply not_true_is_false. intros Hz.
        apply Hnz. exists X, rhs, s_lhs. split; [apply Hkeys; left|done].
    + cbn [mret res_ret mbind res_bind]. simpl.
      apply IH. intros; apply Hkeys; by right.
Qed.

Lemma generate_rules64_raises support_data min_conf :
  zero_antecedent64 support_data →
  generate_rules64 ord support_data min_conf = Raise ZeroDivisionError.
Proof.
  intros (X & rhs & s_lhs & HX & Hsize & Hrhs & Hlhs & Hz).
  unfold generate_rules64. apply for_each_raise.
  - intros rules X' HX'%elem_of_dict_keys. case_decide.
    + unfold rules_of_itemset64. apply for_each_cases.
      intros rules' rhs' _. by apply rule_step64_cases.
    + left. by eexists.
  - exists X. split; [by apply elem_of_dict_keys|]. intros rules.
    rewrite decide_True by done. apply rules_of_itemset64_zero; [done|].
    by exists rhs, s_lhs.
Qed.

Lemma elem_of_rules_list64 support_data min_conf (r : rule64) :
  r ∈ rules_list64 ord support_data min_conf
  ↔ ∃ X x s s_lhs,
      support_data !! X = Some s ∧ 2 ≤ size X ∧ x ∈ X
      ∧ support_data !! (X ∖ {[x]}) = Some s_lhs
      ∧ f64_le min_conf (f64_div s s_lhs) = true
      ∧ r = (X ∖ {[x]}, {[x]}, s, f64_div s s_lhs).
Proof.
  unfold rules_list64. rewrite list_elem_of_bind. split.
  - intros (X & Hr & [s HX]%elem_of_dict_keys).
    destruct (decide (2 ≤ size X)) as [Hsize|]; [|by apply elem_of_nil in Hr].
    apply list_elem_of_omap in Hr as (x & Hx%elem_of_set_iter & Hrule).
    unfold rule_for64 in Hrule. rewrite HX in Hrule.
    destruct (support_data !! (X ∖ {[x]})) as [s_lhs|] eqn:Hlhs; [|done].
    destruct (f64_le min_conf (f64_div s s_lhs)) eqn:Hle; [|done].
    simplify_eq. by exists X, x, s, s_lhs.
  - intros (X & x & s & s_lhs & HX & Hsize & Hx & Hlhs & Hle & ->).
    exists X. split; [|apply elem_of_dict_keys; by eexists].
    rewrite decide_True by done. apply list_elem_of_omap.
    exists x. split; [by apply elem_of_set_iter|].
    unfold rule_for64. by rewrite HX, Hlhs, Hle.
Qed.
End Rules64.

(** ** The construction of the specification, on rounded supports *)

Lemma f64_lt_not_le a b : f64_lt a b = true → f64_le b a = true → False.
Proof.
  destruct a as [|[]| |x], b as [|[]| |y]; try done; intros H1 H2;
    cbv [f64_lt f64_le f64_compare f64_value] in H1, H2;
    rewrite <- Qcompare_antisym in H2;
    by destruct (_ ?= _)%Q.
Qed.

Lemma support64_zero_count X baskets :
  basket_count X baskets = 0%nat → support64 X baskets = F64 0.
Proof. intros Hc. unfold support64, support. by rewrite Hc. Qed.

Lemma frequent64_retained baskets min_sup X :
  f64_lt (F64 0) min_sup = true →
  frequent64 baskets min_sup X → retained64 baskets min_sup X.
Proof.
  intros Hpos Hfreq. split; [|done].
  destruct (basket_count X baskets) as [|c] eqn:Hc; [|lia]. exfalso.
  unfold frequent64 in Hfreq. rewrite (support64_zero_count _ _ Hc) in Hfreq.
  by eapply f64_lt_not_le.
Qed.

Lemma spec_level64_iff baskets min_sup k X :
  f64_lt (F64 0) min_sup = true → 1 ≤ k →
  spec_level64 baskets min_sup k X
  ↔ size X = k ∧ retained64 baskets min_sup X.
Proof.
  intros Hpos. revert X. induction k as [|k IH]; intros X Hk; [lia|].
  destruct k as [|k].
  - simpl. split.
    + intros [(x & -> & _) Hfreq]. split; [apply size_singleton|].
      by apply frequent64_retained.
    + intros [Hsize Hret]. split; [|by destruct Hret].
      apply size_1_elem_of in Hsize as [x ->%leibniz_equiv]. exists x.
      split; [done|]. apply (retained64_in_all_items _ _ _ Hret). set_solver.
  - change (spec_level64 baskets min_sup (S (S k)) X)
      with (spec_candidate (spec_level64 baskets min_sup (S k)) (S (S k)) X
            ∧ frequent64 baskets min_sup X).
    split.
    + intros [[(a & b & _ & _ & _ & _ & _ & Hsize) _] Hfreq].
      split; [done|]. by apply frequent64_retained.
    + intros [Hsize Hret]. split; [|by destruct Hret].
      assert (∀ Y, Y ⊆ X → size Y = S k →
                   spec_level64 baskets min_sup (S k) Y) as Hsub.
      { intros Y HYX HY. apply IH; [lia|]. split; [done|].
        by apply (retained64_subseteq _ _ Y X). }
      split.
      * destruct (join_witness canonical_order X (S (S k)) Hsize)
          as (x & y & Hx & Hy & Hxy & Hpre); [lia|].
        exists (X ∖ {[y]}), (X ∖ {[x]}).
        assert (size (X ∖ {[y]}) = S k) as Hsa.
        { rewrite size_difference by set_solver. rewrite size_singleton. lia. }
        assert (size (X ∖ {[x]}) = S k) as Hsb.
        { rewrite size_difference by set_solver. rewrite size_singleton. lia. }
        split; [apply Hsub; [set_solver|done]|].
        split; [apply Hsub; [set_solver|done]|].
        split.
        { intros Heq. assert (x ∈ X ∖ {[y]}) as Hin by set_solver.
          rewrite Heq in Hin. set_solver. }
        split; [exact Hpre|]. split; [|done].
        apply set_eq. intros z. rewrite elem_of_union, !elem_of_difference,
          !not_elem_of_singleton.
        split; [|tauto]. intros Hz. destruct (decide (z = y)) as [->|?]; eauto.
      * intros Y HYX HY. apply Hsub; [done|]. simpl in HY. lia.
Qed.

Lemma retained64_reachable baskets min_sup X :
  f64_lt (F64 0) min_sup = true → X ≠ ∅ → retained64 baskets min_sup X →
  reachable64 baskets min_sup X.
Proof.
  intros Hpos Hne Hret.
  assert (size X ≠ 0)%nat as Hsize.
  { intros Hz%size_empty_inv. by apply leibniz_equiv in Hz. }
  destruct (decide (size X = 1)%nat) as [H1|H1].
  - left. apply size_1_elem_of in H1 as [x ->%leibniz_equiv]. exists x.
    split; [done|]. apply (retained64_in_all_items _ _ _ Hret). set_solver.
  - right. exists (size X). split; [lia|].
    assert (spec_level64 baskets min_sup (size X) X) as Hlevel
      by (apply spec_level64_iff; [done|lia|done]).
    destruct (size X) as [|[|k]] eqn:Hk; [lia|lia|].
    replace (S (S k) - 1)%nat with (S k) by lia. apply Hlevel.
Qed.

Lemma reachable64_nonempty baskets min_sup X :
  reachable64 baskets min_sup X → X ≠ ∅.
Proof.
  intros [(x & -> & _)|(k & Hk & [(a & b & _ & _ & _ & _ & _ & Hsize) _])].
  - set_solver.
  - intros ->. rewrite size_empty in Hsize. lia.
Qed.

(** ** The recorded supports are not zero *)

Lemma pow2_m1074 : (pow2 (-1074) == 1 # Z.to_pos (2 ^ 1074))%Q.
Proof. vm_compute. reflexivity. Qed.

(** Up to 2^1074 baskets, the support of an itemset that lies in a
    basket does not round to zero.  (A list of CPython has fewer than
    2^63 elements.) *)
Lemma support64_positive X baskets :
  (Z.of_nat (length baskets) <= 2 ^ 1074)%Z →
  1 ≤ basket_count X baskets →
  ∃ q, support64 X baskets = F64 q ∧ (0 < q)%Q.
Proof.
  intros Hlen Hc. apply round64_positive; [|apply support_le_1].
  rewrite pow2_m1074. unfold support.
  pose proof (basket_count_le_length X baskets) as Hle.
  remember (2 ^ 1074)%Z as N eqn:HN.
  assert (0 < N)%Z as HNpos by (subst N; reflexivity).
  clear HN. unfold Qle. cbn [Qnum Qden].
  rewrite Z2Pos.id by done.
  destruct (length baskets) as [|n] eqn:Hn; [lia|].
  rewrite <- Hn in *.
  assert (Z.pos (Pos.of_nat (length baskets)) = Z.of_nat (length baskets))
    as -> by (rewrite Hn; lia).
  nia.
Qed.

Lemma f64_positive_is_zero q : (0 < q)%Q → f64_is_zero (F64 q) = false.
Proof.
  intros Hq. apply not_true_is_false. intros Hz%Qeq_bool_iff.
  rewrite Hz in Hq. by apply Qlt_irrefl in Hq.
Qed.

Lemma support_table64_nonzero baskets min_sup
    (t : gmap (gset string) float64) :
  (Z.of_nat (length baskets) <= 2 ^ 1074)%Z →
  is_support_table64 baskets min_sup t → ¬ zero_antecedent64 t.
Proof.
  intros Hlen Ht (X & rhs & s_lhs & _ & _ & _ & Hlhs & Hz).
  apply Ht in Hlhs as (_ & [Hpos _] & ->).
  destruct (support64_positive _ _ Hlen Hpos) as (q & Hq & Hqpos).
  rewrite Hq in Hz. by rewrite (f64_positive_is_zero _ Hqpos) in Hz.
Qed.

Lemma is_support_table64_unique baskets min_sup
    (t1 t2 : gmap (gset string) float64) :
  is_support_table64 baskets min_sup t1 →
  is_support_table64 baskets min_sup t2 → t1 = t2.
Proof.
  intros H1 H2. apply map_eq. intros X. apply option_eq. intros s.
  by rewrite (H1 X s), (H2 X s).
Qed.

Lemma nonzero_supports64 (t : gmap (gset string) float64) :
  map_Forall (λ _ s, f64_is_zero s = false) t → ¬ zero_antecedent64 t.
Proof.
  intros Hall (X & rhs & s_lhs & _ & _ & _ & Hlhs & Hz).
  by rewrite (Hall _ _ Hlhs) in Hz.
Qed.

(** ** The scenario and the boundary cases, evaluated on floats *)

Example scenario_mined64 :
  entries64 (get_frequent_itemsets64 canonical_order 3 scenario_baskets
               float_0_6)
  = entries64 (Return scenario_table64).
Proof. vm_compute. reflexivity. Qed.

(** At the threshold 0.7 the scenario has four rules; at 0.75 one, since
    0.6 / 0.8 is 0.7499999999999999. *)
Example scenario_rules64 :
  shown_rules64 (generate_rules64 canonical_order scenario_table64 float_0_7)
  = Some [ (["B"], ["C"], float_0_6, f64_div float_0_6 float_0_8);
           (["C"], ["B"], float_0_6, F64 1);
           (["B"], ["A"], float_0_6, f64_div float_0_6 float_0_8);
           (["A"], ["B"], float_0_6, f64_div float_0_6 float_0_8) ]
  ∧ shown_rules64
      (generate_rules64 canonical_order scenario_table64 float_0_75)
    = Some [ (["C"], ["B"], float_0_6, F64 1) ]
  ∧ f64_lt (f64_div float_0_6 float_0_8) float_0_75 = true.
Proof. vm_compute. done. Qed.

Example scenario_run64 :
  let r := main64 canonical_order scenario_world64 3
             ["main.py"; "data.csv"; "0.6"; "0.75"] in
  (stdout r, length <$> output_txt r, ended r)
  = ([ "Loading dataset..."; "Running Apriori..."; "Generating rules...";
       "Writing output to output.txt..."; "Done!" ], Some 8%nat, Finished).
Proof. vm_compute. reflexivity. Qed.

(** * The claims *)

(** C1, miner correctness, as the code has it.  For a non-empty sequence
    of baskets and a threshold in (0,1], the miner returns a table that
    has an entry for an itemset exactly when the itemset is reachable by
    the level-wise construction and passes the test of the program: the
    [float] nearest to the fraction of the baskets that contain it is at
    least the threshold.  That is exactly when the itemset is non-empty
    and passes the test.  The support recorded for an itemset is the
    [float] nearest to the number of baskets that are supersets of it
    over the number of baskets. *)
Theorem miner_correct ord fuel baskets min_sup :
  baskets ≠ [] →
  f64_lt (F64 0) min_sup = true → f64_le min_sup (F64 1) = true →
  size (all_items baskets) ≤ fuel →
  ∃ t, get_frequent_itemsets64 ord fuel baskets min_sup = Return t
       ∧ (∀ X, is_Some (t !! X)
               ↔ frequent64 baskets min_sup X
                 ∧ reachable64 baskets min_sup X)
       ∧ (∀ X, is_Some (t !! X) ↔ X ≠ ∅ ∧ frequent64 baskets min_sup X)
       ∧ (∀ X s, t !! X = Some s →
                 s = round64 (Z.of_nat (basket_count X baskets)
                              # Pos.of_nat (length baskets))).
Proof.
  intros Hne Hpos Hle1 Hfuel.
  destruct (get_frequent_itemsets64_spec ord fuel baskets min_sup Hfuel)
    as (t & Hrun & Ht).
  exists t. split; [done|].
  assert (∀ X, is_Some (t !! X) ↔ X ≠ ∅ ∧ frequent64 baskets min_sup X)
    as Hdom.
  { intros X. split.
    - intros [s (HX & [_ Hfreq] & _)%Ht]. by split.
    - intros [HX Hfreq]. eexists. apply Ht.
      split; [done|]. split; [by apply frequent64_retained|done]. }
  split; [|split; [done|]].
  - intros X. rewrite Hdom. split.
    + intros [HX Hfreq]. split; [done|].
      apply retained64_reachable; [done..|by apply frequent64_retained].
    + intros [Hfreq Hreach]. split; [|done].
      by eapply reachable64_nonempty.
  - by intros X s (_ & _ & ->)%Ht.
Qed.

Lemma miner_correct_witness :
  (scenario_baskets ≠ [] ∧ f64_lt (F64 0) float_0_6 = true
   ∧ f64_le float_0_6 (F64 1) = true
   ∧ size (all_items scenario_baskets) ≤ 3)
  ∧ ∃ t, get_frequent_itemsets64 canonical_order 3 scenario_baskets float_0_6
         = Return t
         ∧ (∀ X, is_Some (t !! X)
                 ↔ frequent64 scenario_baskets float_0_6 X
                   ∧ reachable64 scenario_baskets float_0_6 X)
         ∧ (∀ X, is_Some (t !! X)
                 ↔ X ≠ ∅ ∧ frequent64 scenario_baskets float_0_6 X)
         ∧ (∀ X s, t !! X = Some s →
                   s = round64 (Z.of_nat (basket_count X scenario_baskets)
                                # Pos.of_nat (length scenario_baskets))).
Proof.
  assert (size (all_items scenario_baskets) ≤ 3) as Hfuel
    by (vm_compute; lia).
  split; [repeat split; [discriminate|exact Hfuel]|].
  apply (miner_correct canonical_order 3 scenario_baskets float_0_6);
    [discriminate|reflexivity|reflexivity|exact Hfuel].
Defined.

(** C1 as stated fails, when the fraction and the comparison are read
    exactly.  In the seven baskets, b lies in five.  The threshold
    0.7142857142857143 is the [float] nearest to 5/7 and is larger than
    5/7: the itemset b is not frequent at that threshold, and the miner
    keeps it, with a recorded support that is not 5/7. *)
Lemma rounded_support_kept :
  round64 (5 # 7) = float_5_7
  ∧ (support {["b"]} boundary_baskets == 5 # 7)%Q
  ∧ ¬ frequent boundary_baskets value_5_7 {["b"]}
  ∧ entries64 (get_frequent_itemsets64 canonical_order 1 boundary_baskets
                 float_5_7)
    = Some [ (["b"], float_5_7) ]
  ∧ ¬ (value_5_7 == support {["b"]} boundary_baskets)%Q.
Proof.
  assert (support {["b"]} boundary_baskets = 5 # 7) as Hs
    by (vm_compute; reflexivity).
  split; [vm_compute; reflexivity|].
  split; [by rewrite Hs|].
  split; [unfold frequent; rewrite Hs; by vm_compute|].
  split; [vm_compute; reflexivity|].
  rewrite Hs. by vm_compute.
Qed.










(** C6 as the code has it.  For every table in which no confidence
    division has a zero divisor, and every confidence threshold, the
    rule generator returns a sequence that contains a rule exactly when
    some itemset of the table of size at least 2 and some item of it
    give that rule: the antecedent, the itemset without the item, is in
    the table, and the confidence, which is the [float] quotient of the
    support of the itemset by the support of the antecedent, is at least
    the threshold.  A candidate whose antecedent is absent yields no rule
    and no error. *)
Theorem rule_generator_contract ord
    (support_data : gmap (gset string) float64) min_conf :
  ¬ zero_antecedent64 support_data →
  ∃ rules, generate_rules64 ord support_data min_conf = Return rules
    ∧ (∀ lhs rhs s c,
         (lhs, rhs, s, c) ∈ rules
         ↔ ∃ X x s_lhs,
             support_data !! X = Some s ∧ 2 ≤ size X ∧ x ∈ X
             ∧ lhs = X ∖ {[x]} ∧ rhs = {[x]}
             ∧ support_data !! lhs = Some s_lhs
             ∧ c = f64_div s s_lhs ∧ f64_le min_conf c = true)
    ∧ (∀ lhs rhs s c, support_data !! lhs = None →
                      (lhs, rhs, s, c) ∉ rules).
Proof.
  intros Hnz. exists (rules_list64 ord support_data min_conf).
  split; [by apply generate_rules64_ok|].
  assert (∀ lhs rhs s c,
            (lhs, rhs, s, c) ∈ rules_list64 ord support_data min_conf
            ↔ ∃ X x s_lhs,
                support_data !! X = Some s ∧ 2 ≤ size X ∧ x ∈ X
                ∧ lhs = X ∖ {[x]} ∧ rhs = {[x]}
                ∧ support_data !! lhs = Some s_lhs
                ∧ c = f64_div s s_lhs ∧ f64_le min_conf c = true) as Hiff.
  { intros lhs rhs s c. rewrite elem_of_rules_list64. split.
    - intros (X & x & s' & s_lhs & HX & Hsize & Hx & Hlhs & Hle
              & [= -> -> -> ->]).
      by exists X, x, s_lhs.
    - intros (X & x & s_lhs & HX & Hsize & Hx & -> & -> & Hlhs & -> & Hle).
      by exists X, x, s, s_lhs. }
  split; [exact Hiff|].
  intros lhs rhs s c Hnone (X & x & s_lhs & _ & _ & _ & _ & _ & Hlhs & _)%Hiff.
  by rewrite Hnone in Hlhs.
Qed.

Lemma rule_generator_contract_witness :
  ¬ zero_antecedent64 scenario_table64
  ∧ ∃ rules, generate_rules64 canonical_order scenario_table64 float_0_75
             = Return rules
    ∧ (∀ lhs rhs s c,
         (lhs, rhs, s, c) ∈ rules
         ↔ ∃ X x s_lhs,
             scenario_table64 !! X = Some s ∧ 2 ≤ size X ∧ x ∈ X
             ∧ lhs = X ∖ {[x]} ∧ rhs = {[x]}
             ∧ scenario_table64 !! lhs = Some s_lhs
             ∧ c = f64_div s s_lhs ∧ f64_le float_0_75 c = true)
    ∧ (∀ lhs rhs s c, scenario_table64 !! lhs = None →
                      (lhs, rhs, s, c) ∉ rules).
Proof.
  assert (¬ zero_antecedent64 scenario_table64) as Hnz.
  { apply nonzero_supports64. unfold scenario_table64.
    repeat (apply map_Forall_insert_2; [reflexivity|]).
    apply map_Forall_empty. }
  split; [exact Hnz|].
  apply (rule_generator_contract canonical_order scenario_table64 float_0_75
           Hnz).
Defined.

(** C6 as stated fails, twice.  On a table whose antecedent has support
    0 the confidence division raises ZeroDivisionError, in every order
    and at every threshold.  And the test is made on the rounded
    quotient: in the table that gives c the support 0.9 and cd the
    support 0.3, at the threshold 0.3333333333333333, the rule from c to
    d is produced, and the quotient of the two supports is below the
    threshold. *)
Lemma rule_contract_fails :
  (∀ ord min_conf,
     generate_rules64 ord zero_table64 min_conf = Raise ZeroDivisionError)
  ∧ (¬ ∃ rules, generate_rules64 canonical_order zero_table64 (F64 (1 # 2))
                = Return rules)
  ∧ shown_rules64
      (generate_rules64 canonical_order boundary_table64 float_1_3)
    = Some [ (["c"], ["d"], float_0_3, float_1_3) ]
  ∧ (f64_value float_0_3 / f64_value float_0_9 < value_1_3)%Q.
Proof.
  assert (∀ ord min_conf,
            generate_rules64 ord zero_table64 min_conf
            = Raise ZeroDivisionError) as Hraise.
  { intros ord min_conf. apply generate_rules64_raises.
    exists {["a"; "b"]}, "b", (F64 0). unfold zero_table64.
    split; [eexists; by vm_compute|].
    split; [by vm_compute|]. split; [set_solver|].
    split; [by vm_compute|]. reflexivity. }
  split; [exact Hraise|]. split.
  - intros [rules Hrules]. rewrite Hraise in Hrules. discriminate Hrules.
  - split; vm_compute; reflexivity.
Qed.










(** * Further properties of the rule generator *)





















(** * Further properties of the miner *)

(** X5.  The first counting loop leaves in [count] exactly the single
    items that occur in some basket, each with the number of baskets
    that contain it; no key has count 0. *)
Theorem item_counts ord baskets Y c :
  count_items ord baskets !! Y = Some c
  ↔ (∃ x, Y = {[x]}) ∧ c = basket_count Y baskets ∧ 1 ≤ c.
Proof. apply count_items_lookup. Qed.

(** X6.  The support-counting loop leaves in [candidate_count] exactly
    the pruned candidates that lie in at least one basket, each with the
    number of baskets that contain it: a candidate no basket contains
    gets no entry, so it can never reach the table. *)
Theorem candidate_counts ord baskets pruned Y c :
  count_support ord baskets pruned !! Y = Some c
  ↔ Y ∈ pruned ∧ c = basket_count Y baskets ∧ 1 ≤ c.
Proof. apply count_support_lookup. Qed.

(** X7.  The support filter (the dictionary comprehension of both
    levels).  On an empty count dictionary it returns the empty
    dictionary without dividing, whatever the total; with a zero total
    and a non-empty dictionary it raises ZeroDivisionError; with a
    non-zero total and counts that do not exceed it, it returns the keys
    for which the [float] nearest to the count over the total is at
    least the threshold, each with that [float]. *)
Theorem support_filter_contract ord (count : gmap (gset string) nat)
    total_baskets min_sup :
  (count = ∅ → frequent_of64 ord count total_baskets min_sup = Return ∅)
  ∧ (total_baskets ≠ 0%nat →
     (∀ Y c, count !! Y = Some c → c ≤ total_baskets) →
     ∃ L, frequent_of64 ord count total_baskets min_sup = Return L
          ∧ ∀ Y s, L !! Y = Some s
                   ↔ ∃ c, count !! Y = Some c
                          ∧ s = round64 (Z.of_nat c
                                         # Pos.of_nat total_baskets)
                          ∧ f64_le min_sup s = true)
  ∧ (total_baskets = 0%nat → count ≠ ∅ →
     frequent_of64 ord count total_baskets min_sup
     = Raise ZeroDivisionError).
Proof.
  split; [|split].
  - intros ->. apply frequent_of64_empty.
  - apply frequent_of64_spec.
  - intros ->. apply frequent_of64_zero_total.
Qed.

Lemma support_filter_contract_witness :
  let count : gmap (gset string) nat := {[ {["b"]} := 5%nat ]} in
  (∅ = (∅ : gmap (gset string) nat) ∧ 7%nat ≠ 0%nat
   ∧ (∀ Y c, count !! Y = Some c → c ≤ 7) ∧ 0%nat = 0%nat ∧ count ≠ ∅)
  ∧ frequent_of64 canonical_order ∅ 0 float_5_7 = Return ∅
  ∧ (∃ L, frequent_of64 canonical_order count 7 float_5_7 = Return L
          ∧ ∀ Y s, L !! Y = Some s
                   ↔ ∃ c, count !! Y = Some c
                          ∧ s = round64 (Z.of_nat c # Pos.of_nat 7)
                          ∧ f64_le float_5_7 s = true)
  ∧ frequent_of64 canonical_order count 0 float_5_7
    = Raise ZeroDivisionError.
Proof.
  intros count.
  assert (count ≠ ∅) as Hne by apply insert_non_empty.
  assert (∀ Y c, count !! Y = Some c → c ≤ 7) as Hbound.
  { intros Y c [_ <-]%lookup_singleton_Some. lia. }
  split; [repeat split; [discriminate|exact Hbound|exact Hne]|].
  split; [|split].
  - exact (proj1 (support_filter_contract canonical_order ∅ 0 float_5_7)
             eq_refl).
  - apply (proj1 (proj2 (support_filter_contract canonical_order count 7
                           float_5_7))); [discriminate|exact Hbound].
  - exact (proj2 (proj2 (support_filter_contract canonical_order count 0
                           float_5_7)) eq_refl Hne).
Defined.

(** The reverse of the exact reading at the boundary: five baskets of
    seven hold b, and at the threshold 0.7142857142857143 the key is
    kept. *)
Example boundary_filter :
  entries64 (frequent_of64 canonical_order {[ {["b"]} := 5%nat ]} 7
               float_5_7)
  = Some [ (["b"], float_5_7) ].
Proof. vm_compute. reflexivity. Qed.

Lemma joinable_sorted_items ord k a b :
  joinable ord k a b
  ↔ take (k - 2) (sorted_items a) = take (k - 2) (sorted_items b)
    ∧ size (a ∪ b) = k.
Proof. unfold joinable, sorted_items. by rewrite !sorted_set_iter. Qed.

(** X8.  The join step, on a list of pairwise different itemsets, yields
    exactly the unions of size [k] of two different itemsets of the list
    whose sorted forms agree on their first [k-2] items; the result does
    not depend on the order of the list or of the items. *)
Theorem join_step_contract ord k prev X :
  NoDup prev →
  X ∈ join_step ord k prev ∅
  ↔ ∃ a b, a ∈ prev ∧ b ∈ prev ∧ a ≠ b
           ∧ take (k - 2) (sorted_items a) = take (k - 2) (sorted_items b)
           ∧ X = a ∪ b ∧ size X = k.
Proof.
  intros Hnd. split.
  - intros [Hin|(l1 & a & l2 & b & l3 & -> & Hj & ->)]%join_step_spec.
    { by apply not_elem_of_empty in Hin. }
    apply joinable_sorted_items in Hj as [Hpre Hsize].
    exists a, b. split; [set_solver|]. split; [set_solver|].
    split; [|done].
    intros ->. apply NoDup_app in Hnd as (_ & _ & Hnd).
    apply NoDup_cons in Hnd as [Hnotin _]. apply Hnotin. set_solver.
  - intros (a & b & Ha & Hb & Hne & Hpre & -> & Hsize).
    apply join_step_complete; [done..|]. by apply joinable_sorted_items.
Qed.

Lemma join_step_contract_witness :
  let prev : list (gset string) := [ {["A"]}; {["B"]} ] in
  NoDup prev
  ∧ ∀ X, X ∈ join_step canonical_order 2 prev ∅
         ↔ ∃ a b, a ∈ prev ∧ b ∈ prev ∧ a ≠ b
                  ∧ take (2 - 2) (sorted_items a)
                    = take (2 - 2) (sorted_items b)
                  ∧ X = a ∪ b ∧ size X = 2.
Proof.
  intros prev.
  assert (NoDup prev) as Hnd.
  { apply NoDup_cons. split; [|apply NoDup_singleton].
    intros Hin%list_elem_of_singleton.
    assert ("A" ∈ ({["B"]} : gset string)) as Habs
      by (rewrite <- Hin; by apply elem_of_singleton).
    by apply elem_of_singleton in Habs. }
  split; [exact Hnd|]. intros X.
  exact (join_step_contract canonical_order 2 prev X Hnd).
Defined.

(** X9.  The prune step keeps exactly the candidates all of whose
    subsets of size [k-1] are keys of the previous level: the tuples of
    [itertools.combinations] cover every such subset whatever the
    iteration order. *)
Theorem prune_step_contract ord k (current_L : gmap (gset string) Q)
    candidates X :
  X ∈ prune_step ord k current_L candidates
  ↔ X ∈ candidates
    ∧ ∀ Y, Y ⊆ X → size Y = (k - 1)%nat → is_Some (current_L !! Y).
Proof.
  rewrite prune_step_spec, all_subsets_exist_spec.
  split; intros [Hin Hall]; (split; [done|]).
  - intros Y HYX Hsize.
    set (subset := filter (λ z, z ∈ Y) (set_iter ord X)).
    assert (NoDup subset) as Hnd by apply NoDup_filter, NoDup_set_iter.
    assert (list_to_set subset = Y) as HY.
    { apply set_eq. intros z. unfold subset.
      rewrite elem_of_list_to_set, list_elem_of_filter, elem_of_set_iter.
      set_solver. }
    rewrite <- HY. apply Hall; [apply sublist_filter|].
    by rewrite <- (size_list_to_set (C := gset string)), HY.
  - intros subset Hsub Hlen. apply Hall.
    + intros z Hz%elem_of_list_to_set.
      eapply elem_of_set_iter, elem_of_sublist; eauto.
    + rewrite size_list_to_set; [done|].
      eapply sublist_NoDup; [apply (NoDup_set_iter ord X)|done].
Qed.



(** * Properties of the loader *)

Lemma lstrip_bytes_id ws s : ¬ starts_with ws s → lstrip_bytes ws s = s.
Proof.
  intros Hno. destruct s as [|c1 s1]; [done|]. simpl.
  rewrite bool_decide_eq_false_2; last first.
  { intros Hin. apply Hno. exists [c1]. split; [done|]. by exists s1. }
  destruct s1 as [|c2 s2]; [done|].
  rewrite bool_decide_eq_false_2; last first.
  { intros Hin. apply Hno. exists [c1; c2]. split; [done|]. by exists s2. }
  destruct s2 as [|c3 s3]; [done|].
  rewrite bool_decide_eq_false_2; [done|].
  intros Hin. apply Hno. exists [c1; c2; c3]. split; [done|]. by exists s3.
Qed.

Lemma lstrip_bytes_spec ws s :
  Forall (λ p, 1 ≤ length p ≤ 3) ws →
  lstrip_bytes ws s `suffix_of` s ∧ ¬ starts_with ws (lstrip_bytes ws s).
Proof.
  intros Hws. remember (length s) as n eqn:Hn. revert s Hn.
  induction n as [n IH] using lt_wf_ind. intros s ->.
  assert (∀ p, p ∈ ws → 1 ≤ length p ≤ 3) as Hlen
    by (by apply Forall_forall).
  destruct s as [|c1 s1].
  { simpl. split; [done|]. intros (p & Hp & [k Hk]).
    apply Hlen in Hp. destruct p; simpl in *; [lia|done]. }
  simpl. case_bool_decide as H1.
  { destruct (IH (length s1)) with (s := s1) as [Hsuf Hno];
      [simpl; lia|done|].
    split; [by apply suffix_cons_r|done]. }
  destruct s1 as [|c2 s2].
  { split; [done|]. intros (p & Hp & [k Hk]).
    pose proof (Hlen p Hp). destruct p as [|a [|b p]]; simpl in *; [lia| |done].
    by simplify_eq. }
  case_bool_decide as H2.
  { destruct (IH (length s2)) with (s := s2) as [Hsuf Hno];
      [simpl; lia|done|].
    split; [by do 2 apply suffix_cons_r|done]. }
  destruct s2 as [|c3 s3].
  { split; [done|]. intros (p & Hp & [k Hk]).
    pose proof (Hlen p Hp).
    destruct p as [|a [|b [|c p]]]; simpl in *; [lia| | |done];
      by simplify_eq. }
  case_bool_decide as H3.
  { destruct (IH (length s3)) with (s := s3) as [Hsuf Hno];
      [simpl; lia|done|].
    split; [by do 3 apply suffix_cons_r|done]. }
  split; [done|]. intros (p & Hp & [k Hk]).
  pose proof (Hlen p Hp).
  destruct p as [|a [|b [|c [|d p]]]]; simpl in *; [lia| | | |lia];
    by simplify_eq.
Qed.

Lemma whitespace_lengths : Forall (λ p, 1 ≤ length p ≤ 3) whitespace.
Proof. unfold whitespace. repeat (constructor; [simpl; lia|]). constructor. Qed.

Lemma reverse_whitespace_lengths :
  Forall (λ p, 1 ≤ length p ≤ 3) (reverse <$> whitespace).
Proof.
  apply Forall_fmap. eapply Forall_impl; [apply whitespace_lengths|].
  intros p Hp. simpl. by rewrite length_reverse.
Qed.

Lemma starts_with_reverse ws s :
  starts_with (reverse <$> ws) (reverse s) ↔ ends_with ws s.
Proof.
  unfold starts_with, ends_with. split.
  - intros (p & (q & -> & Hq)%list_elem_of_fmap & Hpre).
    exists q. split; [done|]. by apply suffix_prefix_reverse.
  - intros (p & Hp & Hsuf). exists (reverse p).
    split; [by apply list_elem_of_fmap_2|]. by apply suffix_prefix_reverse.
Qed.

Lemma rstrip_bytes_spec s :
  rstrip_bytes whitespace s `prefix_of` s
  ∧ ¬ ends_with whitespace (rstrip_bytes whitespace s).
Proof.
  unfold rstrip_bytes.
  destruct (lstrip_bytes_spec (reverse <$> whitespace) (reverse s)
              reverse_whitespace_lengths) as [Hsuf Hno].
  split.
  - apply prefix_suffix_reverse. by rewrite reverse_involutive.
  - intros Hend. apply Hno.
    rewrite <- (reverse_involutive (lstrip_bytes _ (reverse s))).
    by apply starts_with_reverse.
Qed.

Lemma rstrip_bytes_id s :
  ¬ ends_with whitespace s → rstrip_bytes whitespace s = s.
Proof.
  intros Hno. unfold rstrip_bytes. rewrite lstrip_bytes_id.
  - apply reverse_involutive.
  - by rewrite starts_with_reverse.
Qed.

Lemma strip_bytes_spec s :
  ¬ starts_with whitespace (strip_bytes s)
  ∧ ¬ ends_with whitespace (strip_bytes s).
Proof.
  unfold strip_bytes.
  destruct (lstrip_bytes_spec whitespace s whitespace_lengths) as [_ Hno].
  destruct (rstrip_bytes_spec (lstrip_bytes whitespace s)) as [Hpre Hend].
  split; [|done]. intros (p & Hp & Hpp). apply Hno. exists p.
  split; [done|]. by etrans.
Qed.

Lemma strip_bytes_id s :
  ¬ starts_with whitespace s → ¬ ends_with whitespace s → strip_bytes s = s.
Proof.
  intros Hs He. unfold strip_bytes. rewrite lstrip_bytes_id by done.
  by apply rstrip_bytes_id.
Qed.

Lemma strip_idemp s : strip (strip s) = strip s.
Proof.
  unfold strip. rewrite String.list_ascii_of_string_of_list_ascii.
  f_equal. destruct (strip_bytes_spec (String.list_ascii_of_string s)).
  by apply strip_bytes_id.
Qed.

Lemma elem_of_clean_row row x :
  x ∈ clean_row row ↔ x ≠ EmptyString ∧ ∃ field, field ∈ row ∧ strip field = x.
Proof.
  unfold clean_row. rewrite elem_of_list_to_set, list_elem_of_fmap. split.
  - intros (field & -> & [Hne Hin]%list_elem_of_filter). eauto.
  - intros (Hne & field & Hin & <-). exists field. split; [done|].
    by apply list_elem_of_filter.
Qed.

(** X11.  Every item of a loaded basket is a field of its row with the
    surrounding whitespace removed; it is not empty, and it neither
    begins nor ends with a whitespace character, so stripping it again
    changes nothing. *)
Theorem loaded_items_clean rows i b x :
  load_rows rows !! i = Some b → x ∈ b →
  x ≠ EmptyString ∧ strip x = x
  ∧ ¬ starts_with whitespace (String.list_ascii_of_string x)
  ∧ ¬ ends_with whitespace (String.list_ascii_of_string x)
  ∧ ∃ row field, rows !! i = Some row ∧ field ∈ row ∧ strip field = x.
Proof.
  unfold load_rows. rewrite list_lookup_fmap.
  destruct (rows !! i) as [row|] eqn:Hrow; [|done]. intros [= <-].
  intros (Hne & field & Hfield & <-)%elem_of_clean_row.
  split; [done|]. split; [apply strip_idemp|].
  unfold strip at 1 2. rewrite String.list_ascii_of_string_of_list_ascii.
  destruct (strip_bytes_spec (String.list_ascii_of_string field)).
  split; [done|]. split; [done|]. by exists row, field.
Qed.

Lemma loaded_items_clean_witness :
  let rows := [ [" a"; "b "; ""; " "] ] in
  (load_rows rows !! 0%nat = Some {["a"; "b"]}
   ∧ "a" ∈ ({["a"; "b"]} : gset string))
  ∧ "a" ≠ EmptyString ∧ strip "a" = "a"
  ∧ ¬ starts_with whitespace (String.list_ascii_of_string "a")
  ∧ ¬ ends_with whitespace (String.list_ascii_of_string "a")
  ∧ ∃ row field, rows !! 0%nat = Some row ∧ field ∈ row ∧ strip field = "a".
Proof.
  intros rows.
  assert (load_rows rows !! 0%nat = Some {["a"; "b"]}) as Hload.
  { simpl. f_equal. }
  assert ("a" ∈ ({["a"; "b"]} : gset string)) as Hin by set_solver.
  split; [split; [exact Hload|exact Hin]|].
  exact (loaded_items_clean rows 0 {["a"; "b"]} "a" Hload Hin).
Defined.

Lemma clean_row_blank row :
  Forall (λ field, strip field = EmptyString) row → clean_row row = ∅.
Proof.
  intros Hblank. apply set_eq. intros x.
  rewrite elem_of_clean_row, elem_of_empty. split; [|done].
  intros (Hne & field & Hin & <-). rewrite Forall_forall in Hblank.
  by apply Hne, Hblank.
Qed.

Lemma basket_count_app X baskets1 baskets2 :
  basket_count X (baskets1 ++ baskets2)
  = (basket_count X baskets1 + basket_count X baskets2)%nat.
Proof. unfold basket_count. by rewrite filter_app, length_app. Qed.

(** X12.  Every row yields one basket, also a row without fields (a blank
    line) or with blank fields only: its basket is empty, it adds one to
    the number of baskets and nothing to the count of any non-empty
    itemset. *)
Theorem blank_row_counts rows1 row rows2 X :
  Forall (λ field, strip field = EmptyString) row → X ≠ ∅ →
  load_rows (rows1 ++ row :: rows2)
  = load_rows rows1 ++ ∅ :: load_rows rows2
  ∧ length (load_rows (rows1 ++ row :: rows2))
    = S (length (load_rows (rows1 ++ rows2)))
  ∧ basket_count X (load_rows (rows1 ++ row :: rows2))
    = basket_count X (load_rows (rows1 ++ rows2)).
Proof.
  intros Hblank HX. unfold load_rows.
  rewrite !fmap_app, fmap_cons, (clean_row_blank row Hblank).
  split; [done|]. split.
  - rewrite !length_app. simpl. lia.
  - rewrite !basket_count_app. f_equal.
    unfold basket_count. rewrite filter_cons.
    rewrite decide_False; [done|]. intros Hsub. apply HX. set_solver.
Qed.

Lemma blank_row_counts_witness :
  let X : gset string := {["a"]} in
  (Forall (λ field, strip field = EmptyString) [" "; ""] ∧ X ≠ ∅)
  ∧ load_rows ([["a"]] ++ [" "; ""] :: [["a"; "b"]])
    = load_rows [["a"]] ++ ∅ :: load_rows [["a"; "b"]]
  ∧ length (load_rows ([["a"]] ++ [" "; ""] :: [["a"; "b"]]))
    = S (length (load_rows ([["a"]] ++ [["a"; "b"]])))
  ∧ basket_count X (load_rows ([["a"]] ++ [" "; ""] :: [["a"; "b"]]))
    = basket_count X (load_rows ([["a"]] ++ [["a"; "b"]])).
Proof.
  intros X.
  assert (Forall (λ field, strip field = EmptyString) [" "; ""]) as Hblank
    by (repeat constructor).
  assert (X ≠ ∅) as HX by (unfold X; set_solver).
  split; [split; [exact Hblank|exact HX]|].
  exact (blank_row_counts [["a"]] [" "; ""] [["a"; "b"]] X Hblank HX).
Defined.

(** * Properties of the report *)

Lemma StronglySorted_weaken {A} (R R' : relation A) (l : list A) :
  (∀ x y, R x y → R' x y) → StronglySorted R l → StronglySorted R' l.
Proof.
  intros Himpl. induction 1 as [|x l Hsorted IH Hall]; constructor; [done|].
  eapply Forall_impl; [exact Hall|]. intros y. apply Himpl.
Qed.

Section StableSort.
Context {A : Type} (lt : A → A → bool).

Lemma insert_stable_Permutation x l : insert_stable lt x l ≡ₚ x :: l.
Proof.
  induction l as [|y l IH]; simpl; [done|].
  destruct (lt y x); [|done]. rewrite IH. apply Permutation_swap.
Qed.

Lemma py_sorted_Permutation l : py_sorted lt l ≡ₚ l.
Proof.
  induction l as [|x l IH]; simpl; [done|].
  by rewrite insert_stable_Permutation, IH.
Qed.

Lemma insert_stable_sorted x l :
  (∀ x y, lt x y = true → lt y x = false) →
  (∀ x y z, lt y x = false → lt z y = false → lt z x = false) →
  StronglySorted (λ x y, lt y x = false) l →
  StronglySorted (λ x y, lt y x = false) (insert_stable lt x l).
Proof.
  intros Hasym Htrans. induction 1 as [|y l Hsorted IH Hall]; simpl.
  - repeat constructor.
  - destruct (lt y x) eqn:Hyx.
    + constructor; [done|].
      rewrite insert_stable_Permutation. constructor; [|done].
      by apply Hasym.
    + constructor; [by constructor|]. constructor; [done|].
      rewrite Forall_forall in Hall |- *. intros z Hz.
      by apply (Htrans x y z), Hall.
Qed.

Lemma py_sorted_sorted l :
  (∀ x y, lt x y = true → lt y x = false) →
  (∀ x y z, lt y x = false → lt z y = false → lt z x = false) →
  StronglySorted (λ x y, lt y x = false) (py_sorted lt l).
Proof.
  intros Hasym Htrans. induction l as [|x l IH]; simpl; [constructor|].
  by apply insert_stable_sorted.
Qed.

Lemma insert_stable_filter (P : A → Prop) `{∀ x, Decision (P x)} x l :
  (∀ x y, P x → P y → lt x y = false) →
  filter P (insert_stable lt x l) = filter P (x :: l).
Proof.
  intros Hties. induction l as [|y l IH]; simpl; [done|].
  destruct (lt y x) eqn:Hyx; [|done].
  rewrite (filter_cons _ y), IH, !filter_cons.
  destruct (decide (P x)) as [Hx|Hx], (decide (P y)) as [Hy|Hy]; try done.
  by rewrite (Hties y x) in Hyx.
Qed.

Lemma py_sorted_stable (P : A → Prop) `{∀ x, Decision (P x)} l :
  (∀ x y, P x → P y → lt x y = false) →
  filter P (py_sorted lt l) = filter P l.
Proof.
  intros Hties. induction l as [|x l IH]; simpl; [done|].
  rewrite insert_stable_filter by done. by rewrite !filter_cons, IH.
Qed.
End StableSort.

Lemma float_lt_opp a b : float_lt (- a) (- b) = true ↔ (b < a)%Q.
Proof.
  unfold float_lt. rewrite negb_true_iff, <- not_true_iff_false, Qle_bool_iff.
  split.
  - intros Hn. apply Qnot_le_lt. intros Hle. apply Hn.
    by apply Qopp_le_compat.
  - intros Hlt Hle. apply (Qlt_not_le _ _ Hlt).
    apply Qopp_le_compat in Hle. by rewrite !Qopp_involutive in Hle.
Qed.

Lemma Qeq_bool_opp a b : Qeq_bool (- a) (- b) = true ↔ (a == b)%Q.
Proof.
  rewrite Qeq_bool_iff. split; intros Heq.
  - by rewrite <- (Qopp_involutive a), Heq, Qopp_involutive.
  - by rewrite Heq.
Qed.

(** The itemset, third component of the key, never decides. *)
Lemma itemset_key_lt_spec (x y : gset string * Q) :
  itemset_key_lt x y = true
  ↔ (y.2 < x.2)%Q ∨ ((x.2 == y.2)%Q ∧ size x.1 < size y.1).
Proof.
  unfold itemset_key_lt.
  destruct (Qeq_bool (- x.2) (- y.2)) eqn:Heq; simpl.
  - apply Qeq_bool_opp in Heq.
    destruct (size x.1 =? size y.1) eqn:Hsize; simpl.
    + apply Nat.eqb_eq in Hsize.
      assert ((if bool_decide (x.1 ≠ y.1) then bool_decide (x.1 ⊂ y.1)
               else false) = false) as ->.
      { case_bool_decide; [|done]. apply bool_decide_eq_false_2.
        intros Hsub%subset_size. lia. }
      split; [done|]. intros [Hlt|[_ Hlt]]; [|lia].
      rewrite Heq in Hlt. by apply Qlt_irrefl in Hlt.
    + apply Nat.eqb_neq in Hsize. rewrite Nat.ltb_lt. split.
      * intros Hlt. by right.
      * intros [Hlt|[_ Hlt]]; [|done].
        rewrite Heq in Hlt. by apply Qlt_irrefl in Hlt.
  - rewrite float_lt_opp. split; [by left|].
    intros [Hlt|[Heq' _]]; [done|].
    apply Qeq_bool_opp in Heq'. congruence.
Qed.

Lemma itemset_key_ge_spec (x y : gset string * Q) :
  itemset_key_lt y x = false
  ↔ (y.2 < x.2)%Q ∨ ((x.2 == y.2)%Q ∧ size x.1 ≤ size y.1).
Proof.
  rewrite <- not_true_iff_false, itemset_key_lt_spec. split.
  - intros Hn. destruct (Qlt_le_dec y.2 x.2) as [Hlt|Hle]; [by left|].
    right. destruct (Qle_lt_or_eq _ _ Hle) as [Hlt|Heq].
    + exfalso. apply Hn. by left.
    + split; [done|]. destruct (decide (size x.1 ≤ size y.1)); [done|].
      exfalso. apply Hn. right. split; [by symmetry|lia].
  - intros [Hlt|[Heq Hsize]] [Hlt'|[Heq' Hsize']].
    + by apply (Qlt_irrefl x.2), (Qlt_trans _ y.2).
    + rewrite Heq' in Hlt. by apply Qlt_irrefl in Hlt.
    + rewrite Heq in Hlt'. by apply Qlt_irrefl in Hlt'.
    + lia.
Qed.

Lemma itemset_key_lt_asym x y :
  itemset_key_lt x y = true → itemset_key_lt y x = false.
Proof.
  rewrite itemset_key_lt_spec, itemset_key_ge_spec.
  intros [Hlt|[Heq Hsize]]; [by left|]. right. split; [done|lia].
Qed.

Lemma itemset_key_ge_trans x y z :
  itemset_key_lt y x = false → itemset_key_lt z y = false →
  itemset_key_lt z x = false.
Proof.
  rewrite !itemset_key_ge_spec.
  intros [Hxy|[Hxy Hsxy]] [Hyz|[Hyz Hsyz]].
  - left. by apply (Qlt_trans _ y.2).
  - left. by rewrite <- Hyz.
  - left. by rewrite Hxy.
  - right. split; [by rewrite Hxy|lia].
Qed.

(** X13.  The report lists every entry of the table exactly once, by
    descending support and, among entries of equal support, by ascending
    size. *)
Theorem sorted_itemsets_order ord (support_data : gmap (gset string) Q) :
  sorted_itemsets ord support_data ≡ₚ map_to_list support_data
  ∧ StronglySorted
      (λ x y, (y.2 < x.2)%Q ∨ ((x.2 == y.2)%Q ∧ size x.1 ≤ size y.1))
      (sorted_itemsets ord support_data).
Proof.
  unfold sorted_itemsets. split.
  - by rewrite py_sorted_Permutation, dict_items_perm.
  - eapply StronglySorted_weaken; last first.
    + apply py_sorted_sorted;
        [apply itemset_key_lt_asym|apply itemset_key_ge_trans].
    + intros x y. apply itemset_key_ge_spec.
Qed.

(** X14.  The third component of the sort key, the itemset itself, never
    decides: entries of equal support and equal size keep the order in
    which the table hands them out. *)
Theorem sorted_itemsets_ties ord (support_data : gmap (gset string) Q) s n :
  filter (λ e : gset string * Q, Qeq_bool e.2 s ∧ size e.1 = n)
         (sorted_itemsets ord support_data)
  = filter (λ e : gset string * Q, Qeq_bool e.2 s ∧ size e.1 = n)
           (dict_items ord support_data).
Proof.
  unfold sorted_itemsets. apply py_sorted_stable.
  intros x y [Hx%Is_true_true%Qeq_bool_iff Hsx]
             [Hy%Is_true_true%Qeq_bool_iff Hsy].
  apply itemset_key_ge_spec. right. split; [by rewrite Hx, Hy|lia].
Qed.

Lemma rule_key_lt_spec r1 r2 :
  rule_key_lt r1 r2 = true ↔ (confidence r2 < confidence r1)%Q.
Proof. apply float_lt_opp. Qed.

Lemma rule_key_ge_spec r1 r2 :
  rule_key_lt r2 r1 = false ↔ (confidence r2 <= confidence r1)%Q.
Proof.
  rewrite <- not_true_iff_false, rule_key_lt_spec. split.
  - apply Qnot_lt_le.
  - intros Hle Hlt. by apply (Qlt_not_le _ _ Hlt).
Qed.

(** X15.  The report lists every rule exactly once, by descending
    confidence; rules of equal confidence keep the order in which they
    were generated. *)
Theorem sorted_rules_order (rules : list rule) c :
  sorted_rules rules ≡ₚ rules
  ∧ StronglySorted (λ r1 r2, (confidence r2 <= confidence r1)%Q)
                   (sorted_rules rules)
  ∧ filter (λ r, Qeq_bool (confidence r) c) (sorted_rules rules)
    = filter (λ r, Qeq_bool (confidence r) c) rules.
Proof.
  unfold sorted_rules. split; [apply py_sorted_Permutation|]. split.
  - eapply StronglySorted_weaken; last first.
    + apply py_sorted_sorted.
      * intros r1 r2 Hlt%rule_key_lt_spec. apply rule_key_ge_spec.
        by apply Qlt_le_weak.
      * intros r1 r2 r3. rewrite !rule_key_ge_spec. intros H1 H2.
        by eapply Qle_trans.
    + intros r1 r2. apply rule_key_ge_spec.
  - apply py_sorted_stable.
    intros r1 r2 H1%Is_true_true%Qeq_bool_iff H2%Is_true_true%Qeq_bool_iff.
    apply rule_key_ge_spec. rewrite H1, H2. apply Qle_refl.
Qed.

(** In the scenario the two single items of support 4/5 come out in
    table order, B before A, not in the order of their labels. *)
Example scenario_report_order :
  (λ e : gset string * Q, (elements e.1, e.2))
    <$> sorted_itemsets canonical_order scenario_table
  = [ (["B"], 4 # 5); (["A"], 4 # 5); (["C"], 3 # 5);
      (["C"; "B"], 3 # 5); (["A"; "B"], 3 # 5) ]%Q.
Proof. vm_compute. reflexivity. Qed.

(** * Properties of a whole run *)



(** X16.  A run with four arguments whose thresholds parse, to any
    [float], and whose file reads, with at most 2^1074 rows, finishes:
    it prints its five progress lines and writes the report of the table
    mined from the cleaned rows and of the rules of that table.  (A list
    of CPython has fewer than 2^63 elements.) *)
Theorem main_completes ord w fuel argv min_sup min_conf rows :
  length argv = 4%nat →
  float64_of w (default EmptyString (argv !! 2%nat)) = Some min_sup →
  float64_of w (default EmptyString (argv !! 3%nat)) = Some min_conf →
  rows_of w (default EmptyString (argv !! 1%nat)) = Some rows →
  (Z.of_nat (length rows) <= 2 ^ 1074)%Z →
  size (all_items (load_rows rows)) ≤ fuel →
  ∃ t, is_support_table64 (load_rows rows) min_sup t
       ∧ main64 ord w fuel argv
         = {| stdout := [ "Loading dataset..."; "Running Apriori...";
                          "Generating rules...";
                          "Writing output to output.txt..."; "Done!" ];
              output_txt :=
                Some (write_output64 ord (fmt_0f w) (fmt_1f w) t
                                     (rules_list64 ord t min_conf)
                                     min_sup min_conf);
              ended := Finished |}.
Proof.
  intros Hargv Hms Hmc Hrows Hlen Hfuel.
  destruct (get_frequent_itemsets64_spec ord fuel (load_rows rows) min_sup
              Hfuel) as (t & Hrun & Ht).
  exists t. split; [exact Ht|].
  assert (¬ zero_antecedent64 t) as Hnz.
  { apply (support_table64_nonzero (load_rows rows) min_sup); [|done].
    unfold load_rows. by rewrite length_fmap. }
  unfold main64, load_dataset64.
  rewrite decide_False by (by rewrite Hargv; intros []).
  rewrite Hms, Hmc, Hrows. simpl. rewrite Hrun.
  by rewrite (generate_rules64_ok ord t min_conf Hnz).
Qed.

Lemma main_completes_witness :
  let argv := ["main.py"; "data.csv"; "0.6"; "0.75"] in
  let rows := [ ["A"; "B"]; ["A"; " B"; "C "]; ["A"]; ["B"; "C"];
                ["A"; "B"; "C"; ""] ] in
  (length argv = 4%nat
   ∧ float64_of scenario_world64 (default EmptyString (argv !! 2%nat))
     = Some float_0_6
   ∧ float64_of scenario_world64 (default EmptyString (argv !! 3%nat))
     = Some float_0_75
   ∧ rows_of scenario_world64 (default EmptyString (argv !! 1%nat))
     = Some rows
   ∧ (Z.of_nat (length rows) <= 2 ^ 1074)%Z
   ∧ size (all_items (load_rows rows)) ≤ 3)
  ∧ ∃ t, is_support_table64 (load_rows rows) float_0_6 t
         ∧ main64 canonical_order scenario_world64 3 argv
           = {| stdout := [ "Loading dataset..."; "Running Apriori...";
                            "Generating rules...";
                            "Writing output to output.txt..."; "Done!" ];
                output_txt :=
                  Some (write_output64 canonical_order
                          (fmt_0f scenario_world64) (fmt_1f scenario_world64)
                          t (rules_list64 canonical_order t float_0_75)
                          float_0_6 float_0_75);
                ended := Finished |}.
Proof.
  intros argv rows.
  assert (size (all_items (load_rows rows)) ≤ 3) as Hfuel
    by (vm_compute; lia).
  assert (Z.of_nat (length rows) <= 2 ^ 1074)%Z as Hlen
    by (vm_compute; discriminate).
  split; [repeat split; [exact Hlen|exact Hfuel]|].
  exact (main_completes canonical_order scenario_world64 3 argv
           float_0_6 float_0_75 rows eq_refl eq_refl eq_refl eq_refl
           Hlen Hfuel).
Defined.


(** * The main results, on floats

    Closure, order, termination, the confidence bound and determinism,
    for the program over binary64 floats. *)

Lemma round64_lower x :
  (pow2 (-1074) <= x)%Q → (x <= 1)%Q →
  ∃ q, round64 x = F64 q ∧ (pow2 (-1074) <= q)%Q ∧ (q <= 1)%Q.
Proof.
  intros Hlow H1.
  assert (0 <= x)%Q as H0
    by (eapply Qle_trans; [apply Qlt_le_weak, (pow2_pos (-1074))|done]).
  destruct (round64_unit x H0 H1) as (q & Hq & _ & Hq1).
  exists q. split; [done|]. split; [|done].
  pose proof (round64_nonneg_mono _ x
                (Qlt_le_weak _ _ (pow2_pos (-1074))) Hlow) as Hm.
  rewrite round64_tiny, Hq, f64_le_finite in Hm. apply Qle_bool_iff in Hm.
  by rewrite Qred_correct in Hm.
Qed.

Lemma support_lower X baskets :
  (Z.of_nat (length baskets) <= 2 ^ 1074)%Z →
  1 ≤ basket_count X baskets →
  (pow2 (-1074) <= support X baskets)%Q.
Proof.
  intros Hlen Hc. rewrite pow2_m1074. unfold support.
  pose proof (basket_count_le_length X baskets) as Hle.
  remember (2 ^ 1074)%Z as N eqn:HN.
  assert (0 < N)%Z as HNpos by (subst N; reflexivity).
  clear HN. unfold Qle. cbn [Qnum Qden].
  rewrite Z2Pos.id by done.
  destruct (length baskets) as [|n] eqn:Hn; [lia|].
  rewrite <- Hn in *.
  assert (Z.pos (Pos.of_nat (length baskets)) = Z.of_nat (length baskets))
    as -> by (rewrite Hn; lia).
  nia.
Qed.

Lemma f64_div_positive a b :
  (0 < a)%Q → (0 < b)%Q → f64_div (F64 a) (F64 b) = round64 (a / b).
Proof.
  intros Ha Hb. unfold f64_div.
  rewrite (f64_positive_is_zero a Ha), (f64_positive_is_zero b Hb).
  reflexivity.
Qed.

(** The rules of the table of the miner: the support of a rule is at
    most the support of its antecedent, and the confidence lies in
    (0,1]. *)
Lemma rule_of_support_table64 baskets min_sup
    (t : gmap (gset string) float64) ord min_conf lhs rhs s c :
  (Z.of_nat (length baskets) <= 2 ^ 1074)%Z →
  is_support_table64 baskets min_sup t →
  (lhs, rhs, s, c) ∈ rules_list64 ord t min_conf →
  t !! (lhs ∪ rhs) = Some s
  ∧ ∃ s_lhs, t !! lhs = Some s_lhs ∧ f64_le s s_lhs = true
             ∧ f64_lt (F64 0) s_lhs = true
             ∧ c = f64_div s s_lhs
             ∧ f64_lt (F64 0) c = true ∧ f64_le c (F64 1) = true.
Proof.
  intros Hlen Ht
    (X & x & s' & s_lhs & HX & _ & Hx & Hlhs & _ & [= -> -> -> ->])
    %elem_of_rules_list64.
  assert (X ∖ {[x]} ∪ {[x]} = X) as ->.
  { apply set_eq. intros z. rewrite elem_of_union, elem_of_difference,
      elem_of_singleton.
    split; [intros [[? _]| ->]; done|].
    intros Hz. destruct (decide (z = x)); eauto. }
  split; [done|]. exists s_lhs. split; [done|].
  pose proof HX as (_ & [HposX _] & ->)%Ht.
  pose proof Hlhs as (_ & [Hpos _] & ->)%Ht.
  pose proof (support64_anti (X ∖ {[x]}) X baskets) as Hanti.
  destruct (round64_lower (support X baskets)) as (qs & Hqs & Hqs0 & Hqs1);
    [by apply support_lower|apply support_le_1|].
  destruct (round64_lower (support (X ∖ {[x]}) baskets))
    as (ql & Hql & Hql0 & Hql1);
    [by apply support_lower|apply support_le_1|].
  unfold support64 in *. rewrite Hqs, Hql in *.
  rewrite f64_le_finite in Hanti.
  assert (qs <= ql)%Q as Hle by (apply Qle_bool_iff, Hanti; set_solver).
  assert (0 < qs)%Q as Hqspos
    by (eapply Qlt_le_trans; [apply (pow2_pos (-1074))|done]).
  assert (0 < ql)%Q as Hqlpos
    by (eapply Qlt_le_trans; [apply (pow2_pos (-1074))|done]).
  split; [apply Hanti; set_solver|].
  assert (∀ q, (0 < q)%Q → f64_lt (F64 0) (F64 q) = true) as Hlt.
  { intros q Hq. unfold f64_lt, f64_compare, f64_value.
    by apply Qlt_alt in Hq as ->. }
  split; [by apply Hlt|]. split; [done|].
  rewrite f64_div_positive by done.
  destruct (round64_lower (qs / ql)) as (qc & -> & Hqc0 & Hqc1).
  - eapply Qle_trans; [exact Hqs0|].
    apply Qle_shift_div_l; [done|].
    rewrite <- (Qmult_1_r qs) at 2.
    apply Qmult_le_l; done.
  - apply Qle_shift_div_r; [done|]. by rewrite Qmult_1_l.
  - split.
    + apply Hlt. eapply Qlt_le_trans; [apply (pow2_pos (-1074))|done].
    + rewrite f64_le_finite. by apply Qle_bool_iff.
Qed.

Lemma support64_Permutation X baskets1 baskets2 :
  baskets1 ≡ₚ baskets2 → support64 X baskets1 = support64 X baskets2.
Proof.
  intros Hperm. unfold support64. by rewrite (support_Permutation X _ _ Hperm).
Qed.

Lemma is_support_table64_Permutation baskets1 baskets2 min_sup
    (t : gmap (gset string) float64) :
  baskets1 ≡ₚ baskets2 →
  is_support_table64 baskets1 min_sup t →
  is_support_table64 baskets2 min_sup t.
Proof.
  intros Hperm Ht X s. rewrite (Ht X s). unfold retained64.
  by rewrite (support64_Permutation X _ _ Hperm),
             (basket_count_Permutation X _ _ Hperm).
Qed.

Lemma rules_list64_Permutation ord1 ord2
    (support_data : gmap (gset string) float64) min_conf :
  rules_list64 ord1 support_data min_conf
  ≡ₚ rules_list64 ord2 support_data min_conf.
Proof.
  unfold rules_list64.
  assert ((dict_items ord1 support_data).*1
          ≡ₚ (dict_items ord2 support_data).*1)
    as -> by (by rewrite !dict_items_perm).
  apply bind_Permutation_pointwise. intros X.
  case_decide; [|done]. by rewrite !set_iter_perm.
Qed.

Lemma apriori_loop64_any_fuel ord baskets min_sup fuel k
    (current_L support_data : gmap (gset string) float64) :
  baskets ≠ [] → 2 ≤ k →
  is_level64 baskets min_sup (k - 1) current_L →
  is_table_upto64 baskets min_sup (k - 1) support_data →
  (∃ t, apriori_loop64 ord fuel baskets (length baskets) min_sup
                       current_L k support_data = Return t
        ∧ is_support_table64 baskets min_sup t)
  ∨ apriori_loop64 ord fuel baskets (length baskets) min_sup
                   current_L k support_data = OutOfFuel.
Proof.
  intros Hne. revert k current_L support_data.
  induction fuel as [|fuel IH]; intros k L t Hk Hlevel Htable; simpl.
  - destruct (decide (L = ∅)) as [->|HL]; [|by right].
    left. exists t. split; [done|].
    by apply (table_upto_complete64 _ _ (k - 1)).
  - destruct (decide (L = ∅)) as [->|HL].
    + left. exists t. split; [done|].
      by apply (table_upto_complete64 _ _ (k - 1)).
    + destruct (level_step64 ord baskets min_sup k L Hne Hk Hlevel)
        as (L' & -> & Hlevel').
      cbn [mbind res_bind]. apply IH; [lia| |].
      * by replace (k + 1 - 1)%nat with k by lia.
      * replace (k + 1 - 1)%nat with (k - 1 + 1)%nat by lia.
        apply table_upto_extend64; [|done].
        by replace (k - 1 + 1)%nat with k by lia.
Qed.

Lemma get_frequent_itemsets64_any_fuel ord fuel baskets min_sup :
  (∃ t, get_frequent_itemsets64 ord fuel baskets min_sup = Return t
        ∧ is_support_table64 baskets min_sup t)
  ∨ get_frequent_itemsets64 ord fuel baskets min_sup = OutOfFuel.
Proof.
  destruct (decide (baskets = [])) as [->|Hne].
  - left. exists ∅. split; [apply get_frequent_itemsets64_empty|].
    intros X s. rewrite lookup_empty. split; [done|].
    intros (_ & [Hpos _] & _). unfold basket_count in Hpos. simpl in Hpos.
    lia.
  - unfold get_frequent_itemsets64.
    destruct (level_one64 ord baskets min_sup Hne) as (L1 & -> & Hlevel).
    cbn [mbind res_bind]. apply apriori_loop64_any_fuel; [done|lia|done|].
    simpl. rewrite (right_id_L ∅ (∪)).
    intros X s. rewrite (Hlevel X s). split.
    + intros (-> & ?). split; [lia|done].
    + intros (? & ?). split; [lia|done].
Qed.

(** X18.  On floats, for every threshold: every non-empty subset of an
    itemset of the returned table is in the table, with a recorded
    support that is at least the support of the itemset and at least the
    threshold. *)
Theorem closure_on_floats ord fuel baskets min_sup :
  size (all_items baskets) ≤ fuel →
  ∃ t, get_frequent_itemsets64 ord fuel baskets min_sup = Return t
       ∧ ∀ X Y s, t !! X = Some s → Y ≠ ∅ → Y ⊆ X →
                  ∃ s', t !! Y = Some s' ∧ f64_le s s' = true
                        ∧ f64_le min_sup s' = true.
Proof.
  intros Hfuel.
  destruct (get_frequent_itemsets64_spec ord fuel baskets min_sup Hfuel)
    as (t & Hrun & Ht).
  exists t. split; [done|]. intros X Y s (_ & Hret & ->)%Ht Hne HYX.
  pose proof (retained64_subseteq _ _ Y X HYX Hret) as HretY.
  exists (support64 Y baskets). split; [by apply Ht|].
  split; [by apply support64_anti|by destruct HretY].
Qed.

Lemma closure_on_floats_witness :
  size (all_items scenario_baskets) ≤ 3
  ∧ ∃ t, get_frequent_itemsets64 canonical_order 3 scenario_baskets float_0_6
         = Return t
         ∧ ∀ X Y s, t !! X = Some s → Y ≠ ∅ → Y ⊆ X →
                    ∃ s', t !! Y = Some s' ∧ f64_le s s' = true
                          ∧ f64_le float_0_6 s' = true.
Proof.
  assert (size (all_items scenario_baskets) ≤ 3) as Hfuel
    by (vm_compute; lia).
  split; [exact Hfuel|].
  apply (closure_on_floats canonical_order 3 scenario_baskets float_0_6
           Hfuel).
Defined.

(** X19.  On floats the miner returns for every threshold, a NaN or an
    infinity included, and raises nothing; more fuel gives the same
    table.  Every recorded support is a finite [float] between 0 and 1,
    of an itemset that lies in a basket.  At a NaN threshold the table
    is empty. *)
Theorem miner_returns_on_floats ord fuel fuel' baskets min_sup :
  size (all_items baskets) ≤ fuel → fuel ≤ fuel' →
  ∃ t, get_frequent_itemsets64 ord fuel baskets min_sup = Return t
       ∧ get_frequent_itemsets64 ord fuel' baskets min_sup = Return t
       ∧ (∀ X s, t !! X = Some s →
                 (∃ q, s = F64 q ∧ (0 <= q)%Q ∧ (q <= 1)%Q)
                 ∧ ∃ b, b ∈ baskets ∧ X ⊆ b)
       ∧ (min_sup = F64nan → t = ∅).
Proof.
  intros Hfuel Hfuel'.
  destruct (get_frequent_itemsets64_spec ord fuel baskets min_sup Hfuel)
    as (t & Hrun & Ht).
  destruct (get_frequent_itemsets64_spec ord fuel' baskets min_sup)
    as (t' & Hrun' & Ht'); [lia|].
  assert (t' = t) as -> by (by apply (is_support_table64_unique baskets min_sup)).
  exists t. split; [done|]. split; [done|]. split.
  - intros X s (_ & [Hpos _] & ->)%Ht. split.
    + apply support64_finite.
    + by apply basket_count_pos.
  - intros ->. apply map_empty. intros X.
    destruct (t !! X) as [s|] eqn:HX; [|done].
    by apply Ht in HX as (_ & [_ Hle] & _).
Qed.

Lemma miner_returns_on_floats_witness :
  (size (all_items scenario_baskets) ≤ 3 ∧ 3 ≤ 5)
  ∧ ∃ t, get_frequent_itemsets64 canonical_order 3 scenario_baskets F64nan
         = Return t
         ∧ get_frequent_itemsets64 canonical_order 5 scenario_baskets F64nan
           = Return t
         ∧ (∀ X s, t !! X = Some s →
                   (∃ q, s = F64 q ∧ (0 <= q)%Q ∧ (q <= 1)%Q)
                   ∧ ∃ b, b ∈ scenario_baskets ∧ X ⊆ b)
         ∧ (F64nan = F64nan → t = ∅).
Proof.
  assert (size (all_items scenario_baskets) ≤ 3) as Hfuel
    by (vm_compute; lia).
  assert (3 ≤ 5) as Hle by lia.
  split; [split; [exact Hfuel|exact Hle]|].
  apply (miner_returns_on_floats canonical_order 3 5 scenario_baskets F64nan
           Hfuel Hle).
Defined.

(** X20.  On floats, with at most 2^1074 baskets: the rule generator
    returns on the table of the miner, no division has a zero divisor,
    and for each rule the support of the union is at most the support of
    the antecedent, which is positive, and the confidence is the [float]
    quotient of the two, positive and at most 1. *)
Theorem confidence_on_floats ord fuel baskets min_sup min_conf :
  (Z.of_nat (length baskets) <= 2 ^ 1074)%Z →
  size (all_items baskets) ≤ fuel →
  ∃ t rules,
    get_frequent_itemsets64 ord fuel baskets min_sup = Return t
    ∧ generate_rules64 ord t min_conf = Return rules
    ∧ ¬ zero_antecedent64 t
    ∧ ∀ lhs rhs s c,
        (lhs, rhs, s, c) ∈ rules →
        t !! (lhs ∪ rhs) = Some s
        ∧ ∃ s_lhs, t !! lhs = Some s_lhs ∧ f64_le s s_lhs = true
                   ∧ f64_lt (F64 0) s_lhs = true
                   ∧ c = f64_div s s_lhs
                   ∧ f64_lt (F64 0) c = true ∧ f64_le c (F64 1) = true.
Proof.
  intros Hlen Hfuel.
  destruct (get_frequent_itemsets64_spec ord fuel baskets min_sup Hfuel)
    as (t & Hrun & Ht).
  pose proof (support_table64_nonzero _ _ _ Hlen Ht) as Hnz.
  exists t, (rules_list64 ord t min_conf). split; [done|].
  split; [by apply generate_rules64_ok|]. split; [done|].
  intros lhs rhs s c Hrule.
  by apply (rule_of_support_table64 baskets min_sup t ord min_conf).
Qed.

Lemma confidence_on_floats_witness :
  ((Z.of_nat (length scenario_baskets) <= 2 ^ 1074)%Z
   ∧ size (all_items scenario_baskets) ≤ 3)
  ∧ ∃ t rules,
      get_frequent_itemsets64 canonical_order 3 scenario_baskets float_0_6
      = Return t
      ∧ generate_rules64 canonical_order t float_0_75 = Return rules
      ∧ ¬ zero_antecedent64 t
      ∧ ∀ lhs rhs s c,
          (lhs, rhs, s, c) ∈ rules →
          t !! (lhs ∪ rhs) = Some s
          ∧ ∃ s_lhs, t !! lhs = Some s_lhs ∧ f64_le s s_lhs = true
                     ∧ f64_lt (F64 0) s_lhs = true
                     ∧ c = f64_div s s_lhs
                     ∧ f64_lt (F64 0) c = true ∧ f64_le c (F64 1) = true.
Proof.
  assert (size (all_items scenario_baskets) ≤ 3) as Hfuel
    by (vm_compute; lia).
  assert (Z.of_nat (length scenario_baskets) <= 2 ^ 1074)%Z as Hlen
    by (vm_compute; discriminate).
  split; [split; [exact Hlen|exact Hfuel]|].
  apply (confidence_on_floats canonical_order 3 scenario_baskets float_0_6
           float_0_75 Hlen Hfuel).
Defined.

(** X21.  On floats: two runs of the miner, on a sequence of baskets and
    on any permutation of it, under any two iteration orders, return the
    same table, and the rules of that table under the two orders are
    permutations of each other. *)
Theorem deterministic_on_floats ord1 ord2 fuel1 fuel2 baskets1 baskets2
    min_sup min_conf :
  baskets1 ≡ₚ baskets2 →
  (Z.of_nat (length baskets1) <= 2 ^ 1074)%Z →
  size (all_items baskets1) ≤ fuel1 →
  size (all_items baskets2) ≤ fuel2 →
  ∃ t rules1 rules2,
    get_frequent_itemsets64 ord1 fuel1 baskets1 min_sup = Return t
    ∧ get_frequent_itemsets64 ord2 fuel2 baskets2 min_sup = Return t
    ∧ generate_rules64 ord1 t min_conf = Return rules1
    ∧ generate_rules64 ord2 t min_conf = Return rules2
    ∧ rules1 ≡ₚ rules2.
Proof.
  intros Hperm Hlen Hfuel1 Hfuel2.
  destruct (get_frequent_itemsets64_spec ord1 fuel1 baskets1 min_sup Hfuel1)
    as (t1 & Hrun1 & Ht1).
  destruct (get_frequent_itemsets64_spec ord2 fuel2 baskets2 min_sup Hfuel2)
    as (t2 & Hrun2 & Ht2).
  assert (t2 = t1) as ->.
  { apply (is_support_table64_unique baskets2 min_sup); [done|].
    by apply (is_support_table64_Permutation baskets1). }
  exists t1, (rules_list64 ord1 t1 min_conf), (rules_list64 ord2 t1 min_conf).
  split; [done|]. split; [done|].
  pose proof (support_table64_nonzero _ _ _ Hlen Ht1) as Hnz.
  split; [by apply generate_rules64_ok|].
  split; [by apply generate_rules64_ok|].
  apply rules_list64_Permutation.
Qed.

Lemma deterministic_on_floats_witness :
  (scenario_baskets ≡ₚ reverse scenario_baskets
   ∧ (Z.of_nat (length scenario_baskets) <= 2 ^ 1074)%Z
   ∧ size (all_items scenario_baskets) ≤ 3
   ∧ size (all_items (reverse scenario_baskets)) ≤ 3)
  ∧ ∃ t rules1 rules2,
      get_frequent_itemsets64 canonical_order 3 scenario_baskets float_0_6
      = Return t
      ∧ get_frequent_itemsets64 reversed_order 3 (reverse scenario_baskets)
          float_0_6 = Return t
      ∧ generate_rules64 canonical_order t float_0_75 = Return rules1
      ∧ generate_rules64 reversed_order t float_0_75 = Return rules2
      ∧ rules1 ≡ₚ rules2.
Proof.
  assert (scenario_baskets ≡ₚ reverse scenario_baskets) as Hperm
    by (symmetry; apply reverse_Permutation).
  assert (Z.of_nat (length scenario_baskets) <= 2 ^ 1074)%Z as Hlen
    by (vm_compute; discriminate).
  assert (size (all_items scenario_baskets) ≤ 3) as Hfuel1
    by (vm_compute; lia).
  assert (size (all_items (reverse scenario_baskets)) ≤ 3) as Hfuel2
    by (vm_compute; lia).
  split; [split; [exact Hperm|split; [exact Hlen|split;
    [exact Hfuel1|exact Hfuel2]]]|].
  apply (deterministic_on_floats canonical_order reversed_order 3 3
           scenario_baskets (reverse scenario_baskets) float_0_6 float_0_75
           Hperm Hlen Hfuel1 Hfuel2).
Defined.

(** X22.  On floats, no exception of the miner or of the rule generator
    escapes a run whose file has at most 2^1074 rows: whatever the
    arguments, the thresholds and the fuel, the run does not end on a
    ZeroDivisionError, an OverflowError or a KeyError. *)
Theorem main64_no_uncaught ord w fuel argv e :
  (∀ rows, rows_of w (default EmptyString (argv !! 1%nat)) = Some rows →
           (Z.of_nat (length rows) <= 2 ^ 1074)%Z) →
  ended (main64 ord w fuel argv) ≠ Failed (Uncaught e).
Proof.
  intros Hrows. unfold main64. case_decide; [done|].
  destruct (float64_of w (default EmptyString (argv !! 2%nat)))
    as [min_sup|]; [|done].
  destruct (float64_of w (default EmptyString (argv !! 3%nat)))
    as [min_conf|]; [|done].
  unfold load_dataset64.
  destruct (rows_of w (default EmptyString (argv !! 1%nat)))
    as [rows|] eqn:Hr; [|done].
  cbn [fmap option_fmap option_map].
  destruct (get_frequent_itemsets64_any_fuel ord fuel (load_rows rows)
              min_sup) as [(t & -> & Ht)| ->]; [|done].
  assert (¬ zero_antecedent64 t) as Hnz.
  { apply (support_table64_nonzero (load_rows rows) min_sup); [|done].
    unfold load_rows. rewrite length_fmap. by apply Hrows. }
  by rewrite (generate_rules64_ok ord t min_conf Hnz).
Qed.

Lemma main64_no_uncaught_witness :
  let argv := ["main.py"; "data.csv"; "0.6"; "0.75"] in
  (∀ rows, rows_of scenario_world64 (default EmptyString (argv !! 1%nat))
           = Some rows → (Z.of_nat (length rows) <= 2 ^ 1074)%Z)
  ∧ ended (main64 canonical_order scenario_world64 0 argv)
    ≠ Failed (Uncaught ZeroDivisionError).
Proof.
  intros argv.
  assert (∀ rows, rows_of scenario_world64
                    (default EmptyString (argv !! 1%nat)) = Some rows →
                  (Z.of_nat (length rows) <= 2 ^ 1074)%Z) as Hrows.
  { intros rows [= <-]. vm_compute. discriminate. }
  split; [exact Hrows|].
  exact (main64_no_uncaught canonical_order scenario_world64 0 argv
           ZeroDivisionError Hrows).
Defined.
